(** * convex_hull_cluster.py: a shallow embedding

    The Python module is embedded function by function.  Exceptions are
    explicit outcomes, lists and tuples are Rocq lists, dictionaries whose
    values are always [True] are lists of keys, and the floating-point
    kernel of numpy is an interface ([Numeric]) so that every statement
    about control flow holds for any arithmetic; an exact integer instance
    ([ExactZ]) is used to run the code on concrete inputs. *)

From Stdlib Require Import String ZArith Bool List Lia Permutation Ring.
From Stdlib Require Import Reals RealField Lra.
Import ListNotations.
Open Scope Z_scope.

(** ** Outcomes of running Python code *)

Inductive exn : Type :=
| IndexError
| TypeError
| ValueError
| LinAlgError
| StopIteration.

(** [Blocked] is a call that never returns ([queue.Queue.get] on an empty
    queue in a single-threaded program); [OutOfFuel] only says that the
    bound given to a modelled [while] loop was reached. *)
Inductive outcome (A : Type) : Type :=
| Ok (a : A)
| Raise (e : exn)
| Blocked
| OutOfFuel.

Arguments Ok {A} a.
Arguments Raise {A} e.
Arguments Blocked {A}.
Arguments OutOfFuel {A}.

Definition bind {A B : Type} (m : outcome A) (k : A -> outcome B) : outcome B :=
  match m with
  | Ok a => k a
  | Raise e => Raise e
  | Blocked => Blocked
  | OutOfFuel => OutOfFuel
  end.

Notation "x <- m ;; k" := (bind m (fun x => k))
  (at level 61, m at next level, right associativity).
Notation "' p <- m ;; k" := (bind m (fun x => let 'p := x in k))
  (at level 61, p pattern, m at next level, right associativity).

Definition raises {A : Type} (m : outcome A) : Prop := exists e, m = Raise e.

Definition returns {A : Type} (m : outcome A) : Prop := exists a, m = Ok a.

(** ** Python sequences *)

(** [l[i]] for a non-negative index. *)
Definition index_nat {A : Type} (l : list A) (i : nat) : outcome A :=
  match nth_error l i with
  | Some a => Ok a
  | None => Raise IndexError
  end.

(** [l[i]] for any integer index: a negative index counts from the end. *)
Definition py_index {A : Type} (l : list A) (i : Z) : outcome A :=
  let n := Z.of_nat (length l) in
  let j := if i <? 0 then i + n else i in
  if (0 <=? j) && (j <? n) then index_nat l (Z.to_nat j) else Raise IndexError.

Fixpoint set_nth {A : Type} (l : list A) (i : nat) (a : A) : list A :=
  match l, i with
  | [], _ => []
  | _ :: l', O => a :: l'
  | b :: l', S i' => b :: set_nth l' i' a
  end.

(** [l[i] = a]. *)
Definition py_set {A : Type} (l : list A) (i : Z) (a : A) : outcome (list A) :=
  let n := Z.of_nat (length l) in
  let j := if i <? 0 then i + n else i in
  if (0 <=? j) && (j <? n) then Ok (set_nth l (Z.to_nat j) a) else Raise IndexError.

(** A slice bound is moved into [0, len]. *)
Definition clamp (n : Z) (i : Z) : Z :=
  let j := if i <? 0 then i + n else i in
  Z.max 0 (Z.min n j).

(** [l[lo:hi]]. *)
Definition py_slice {A : Type} (l : list A) (lo hi : Z) : list A :=
  let n := Z.of_nat (length l) in
  let a := clamp n lo in
  let b := clamp n hi in
  firstn (Z.to_nat (b - a)) (skipn (Z.to_nat a) l).

(** [bool(x)] of a container is [len(x) != 0]. *)
Definition truthy_len (n : nat) : bool := negb (Nat.eqb n 0).

(** [len] of a tuple of three components. *)
Definition len3 {A B C : Type} (t : A * B * C) : nat := 3%nat.

(** The sequence without its element at position [i]. *)
Fixpoint remove_nth {A : Type} (i : nat) (l : list A) : list A :=
  match l, i with
  | [], _ => []
  | _ :: l', O => l'
  | a :: l', S i' => a :: remove_nth i' l'
  end.

(** The sequence with the elements at positions [i] and [j] exchanged. *)
Definition swap {A : Type} (i j : nat) (l : list A) : list A :=
  match nth_error l i, nth_error l j with
  | Some a, Some b => set_nth (set_nth l i b) j a
  | _, _ => l
  end.

(** The position that [k] names once positions [i] and [j] are exchanged. *)
Definition transp (i j k : nat) : nat :=
  if Nat.eqb k i then j else if Nat.eqb k j then i else k.

(** The position in a sequence of what is at [k] once position [i] is removed. *)
Definition skip (i k : nat) : nat := if Nat.ltb k i then k else S k.

(** The position, once position [i] is removed, of what was at [k]. *)
Definition below (i k : nat) : nat := if Nat.ltb k i then k else pred k.

(** Case analysis on the innermost test of equality of positions. *)
Ltac eqb_case :=
  match goal with
  | |- context [Nat.eqb ?a ?b] =>
      lazymatch a with
      | context [if _ then _ else _] => fail
      | _ => destruct (Nat.eqb_spec a b); try lia
      end
  end.

(** ** The numeric kernel

    Coordinates and log-magnitudes are Python floats.  The code never mixes
    the two, so the interface keeps them apart: [scalar] is a component of a
    coordinate, [logv] a value returned as [logdet] by
    [numpy.linalg.slogdet].  The sign returned by [slogdet] is -1, 0 or 1
    (the docstring of [signed_volume] quotes this contract). *)

Class Numeric : Type := {
  scalar : Type;
  scalar_zero : scalar;
  scalar_eqb : scalar -> scalar -> bool;
  scalar_ltb : scalar -> scalar -> bool;
  scalar_sub : scalar -> scalar -> scalar;
  scalar_add : scalar -> scalar -> scalar;
  scalar_mul : scalar -> scalar -> scalar;
  logv : Type;
  (** what LAPACK computes for a square matrix given by its rows *)
  slogdet_kernel : list (list scalar) -> Z * logv;
  (** [numpy.isclose([x], [0])] *)
  isclose0 : logv -> bool;
  (** [x > y] *)
  logv_gtb : logv -> logv -> bool;
  (** [bool(x)], that is [x != 0.0] *)
  logv_truthy : logv -> bool;
  volume_t : Type;
  volume_zero : volume_t;
  (** [volume + numpy.e ** logvolume] *)
  volume_add_exp : volume_t -> logv -> volume_t
}.

Section Geometry.

Context `{Numeric}.

(** ** Predefined types of the module docstring *)

Definition Vertex : Type := list scalar.

Definition Vertices : Type := list Vertex.

Record Point : Type := mkPoint {
  coordinate : Vertex;
  label : Z
}.

Definition Dataset : Type := list Point.

(** [==] on tuples of floats, which is also the key equality of the
    dictionaries keyed by coordinates. *)
Fixpoint vertex_eqb (x y : Vertex) : bool :=
  match x, y with
  | [], [] => true
  | a :: x', b :: y' => scalar_eqb a b && vertex_eqb x' y'
  | _, _ => false
  end.

(** [<] on tuples of floats: the first differing component decides. *)
Fixpoint vertex_ltb (x y : Vertex) : bool :=
  match x, y with
  | [], [] => false
  | [], _ :: _ => true
  | _ :: _, [] => false
  | a :: x', b :: y' => if scalar_eqb a b then vertex_ltb x' y' else scalar_ltb a b
  end.

Fixpoint vertices_eqb (x y : Vertices) : bool :=
  match x, y with
  | [], [] => true
  | a :: x', b :: y' => vertex_eqb a b && vertices_eqb x' y'
  | _, _ => false
  end.

(** [key in d] for a dictionary given by its keys. *)
Definition vertex_in (v : Vertex) (keys : list Vertex) : bool :=
  existsb (vertex_eqb v) keys.

(** ** numpy arrays and matrices *)

(** [numpy.array(x) - reference] on one-dimensional arrays, with numpy's
    broadcasting of a length-one operand. *)
Definition array_sub (x reference : Vertex) : outcome (list scalar) :=
  if Nat.eqb (length x) (length reference)
  then Ok (map (fun ab => scalar_sub (fst ab) (snd ab)) (combine x reference))
  else match x, reference with
       | _, [r] => Ok (map (fun a => scalar_sub a r) x)
       | [a], _ => Ok (map (fun r => scalar_sub a r) reference)
       | _, _ => Raise ValueError
       end.

Record matrix : Type := mkMatrix {
  nrows : nat;
  ncols : nat;
  entries : list (list scalar)
}.

(** [numpy.matrix(rows)]: an empty list gives shape (1, 0); rows of unequal
    length are refused. *)
Definition numpy_matrix (rows : list (list scalar)) : outcome matrix :=
  match rows with
  | [] => Ok (mkMatrix 1 0 [[]])
  | r :: _ =>
      if forallb (fun r' => Nat.eqb (length r') (length r)) rows
      then Ok (mkMatrix (length rows) (length r) rows)
      else Raise ValueError
  end.

(** [m.T] *)
Definition transpose (m : matrix) : matrix :=
  mkMatrix (ncols m) (nrows m)
    (map (fun j => map (fun r => nth j r scalar_zero) (entries m)) (seq 0 (ncols m))).

Definition dot (u v : list scalar) : scalar :=
  fold_left scalar_add (map (fun ab => scalar_mul (fst ab) (snd ab)) (combine u v))
    scalar_zero.

(** [a * b] on numpy matrices is the matrix product. *)
Definition matmul (a b : matrix) : outcome matrix :=
  if Nat.eqb (ncols a) (nrows b)
  then Ok (mkMatrix (nrows a) (ncols b)
             (map (fun r => map (fun c => dot r c) (entries (transpose b))) (entries a)))
  else Raise ValueError.

(** [numpy.linalg.slogdet(m)]: the last two dimensions must be square. *)
Definition slogdet (m : matrix) : outcome (Z * logv) :=
  if Nat.eqb (nrows m) (ncols m) then Ok (slogdet_kernel (entries m))
  else Raise LinAlgError.

(** [[numpy.array(x) - reference for x in xs]] *)
Fixpoint difference_rows (reference : Vertex) (xs : Vertices) : outcome (list (list scalar)) :=
  match xs with
  | [] => Ok []
  | x :: xs' =>
      r <- array_sub x reference ;;
      rs <- difference_rows reference xs' ;;
      Ok (r :: rs)
  end.

(** ** Geometry primitives *)

Definition signed_volume (vertices : Vertices) : outcome (Z * logv) :=
  reference <- index_nat vertices 0 ;;
  rows <- difference_rows reference (tl vertices) ;;
  m <- numpy_matrix rows ;;
  slogdet m.

Definition squared_area (vertices : Vertices) : outcome logv :=
  reference <- index_nat vertices 0 ;;
  rows <- difference_rows reference (tl vertices) ;;
  m <- numpy_matrix rows ;;
  g <- matmul (transpose m) m ;;
  sl <- slogdet g ;;
  Ok (snd sl).

Definition form_face (edge : Vertices) (pivot : Vertex) : Vertices :=
  edge ++ [pivot].

(** ** Facet predicate

    Keyword arguments that default to [None] are options.  [edge or ...]
    replaces an empty tuple as well as [None], and [area or ...] replaces
    [0.0] as well as [None]; the right operand is evaluated only then. *)
Definition check_inside (face : option Vertices) (pivot : option Vertex)
    (edge : option Vertices) (area : option logv)
  : outcome (bool * Vertices * logv) :=
  match face, pivot with
  | Some face, Some pivot =>
      let edge :=
        match edge with
        | Some e => if truthy_len (length e) then e else removelast face
        | None => removelast face
        end in
      area <- match area with
              | Some a => if logv_truthy a then Ok a else squared_area face
              | None => squared_area face
              end ;;
      sv <- signed_volume (form_face face pivot) ;;
      let sign := fst sv in
      let logvolume := snd sv in
      let _face := form_face edge pivot in
      _area <- squared_area _face ;;
      if (isclose0 logvolume && logv_gtb _area area) || (sign <? 0)
      then Ok (false, _face, _area)
      else Ok (true, _face, _area)
  | _, _ => Raise ValueError
  end.

(** ** Hull predicate

    The loop tests the tuple returned by [check_inside], not its first
    component. *)
Fixpoint check_inside_hull (hull : list Vertices) (pivot : Vertex) : outcome bool :=
  match hull with
  | [] => Ok true
  | face :: hull' =>
      r <- check_inside (Some face) (Some pivot) None None ;;
      if negb (truthy_len (len3 r)) then Ok false
      else check_inside_hull hull' pivot
  end.

(** ** Pivot selector: the generator [pivot_on_edge]

    A generator is the state it is suspended in.  [send] resumes it with
    the value received by the pending [yield] ([None] for [next]) and
    gives the next yielded value, or the exception that ends it. *)

Record candidate : Type := mkCandidate {
  cand_pivot : Vertex;
  cand_face : Vertices;
  cand_area : logv
}.

Inductive yielded : Type :=
| Suggest (pivot : Vertex) (lbl : Z)       (* the list [pivot, label, None], of length 3 *)
| Final (pivot : Vertex) (found : bool).   (* the tuple (pivot, found), of length 2 *)

Inductive generator : Type :=
| Created (dataset : Dataset) (edge : Vertices) (lbl : Z)
| AtFirstYield (dataset : Dataset) (edge : Vertices) (lbl : Z) (homo opp : candidate)
| AtLoopYield (edge : Vertices) (lbl : Z) (homo opp : candidate) (found : bool)
    (current : candidate) (rest : list Point)
| AtFinalYield
| Finished.

(** [while index < length and cond(dataset[index]): index += 1], run on the
    part of the dataset from [index] on. *)
Fixpoint advance (cond : Point -> bool) (suffix : list Point) (index : nat) : nat :=
  match suffix with
  | [] => index
  | p :: suffix' => if cond p then advance cond suffix' (S index) else index
  end.

(** The [for point in dataset] loop, from the point it has reached up to the
    next [yield]. *)
Fixpoint scan (edge : Vertices) (lbl : Z) (homo opp : candidate) (found : bool)
    (rest : list Point) : outcome (yielded * generator) :=
  match rest with
  | [] => Ok (Final (cand_pivot homo) found, AtFinalYield)
  | point :: rest' =>
      r <- check_inside (Some (cand_face homo)) (Some (coordinate point))
             (Some edge) (Some (cand_area homo)) ;;
      let '(updated, face, area) := r in
      let current := mkCandidate (coordinate point) face area in
      let updated := if label point =? lbl then negb updated else updated in
      if updated
      then Ok (Suggest (cand_pivot current) lbl,
               AtLoopYield edge lbl homo opp found current rest')
      else scan edge lbl homo opp found rest'
  end.

(** The code from the start of the body to the first [yield]. *)
Definition pivot_on_edge_start (dataset : Dataset) (edge : Vertices) (lbl : Z)
  : outcome (yielded * generator) :=
  let index := advance (fun p => negb (label p =? lbl)) dataset 0 in
  p <- index_nat dataset index ;;
  let homo_pivot := coordinate p in
  let homo_face := form_face edge homo_pivot in
  homo_area <- squared_area homo_face ;;
  let homo := mkCandidate homo_pivot homo_face homo_area in
  let index := advance (fun p => label p =? lbl) (skipn index dataset) index in
  q <- index_nat dataset index ;;
  let opp_pivot := coordinate q in
  let opp_face := form_face edge opp_pivot in
  opp_area <- squared_area opp_face ;;
  let opp := mkCandidate opp_pivot opp_face opp_area in
  Ok (Suggest (cand_pivot homo) lbl, AtFirstYield dataset edge lbl homo opp).

Definition pivot_on_edge (dataset : Dataset) (edge : Vertices) (lbl : Z) : generator :=
  Created dataset edge lbl.

Definition is_verdict (check : option string) (s : string) : bool :=
  match check with
  | Some c => String.eqb c s
  | None => false
  end.

Definition send (g : generator) (check : option string) : outcome (yielded * generator) :=
  match g with
  | Created dataset edge lbl =>
      match check with
      | None => pivot_on_edge_start dataset edge lbl
      | Some _ => Raise TypeError   (* a just-started generator takes only None *)
      end
  | AtFirstYield dataset edge lbl homo opp =>
      let found := if is_verdict check "homogeneous" then true else false in
      scan edge lbl homo opp found dataset
  | AtLoopYield edge lbl homo opp found current rest =>
      if is_verdict check "homogeneous"
      then scan edge lbl current opp true rest
      else if is_verdict check "opposite inside"
      then scan edge lbl homo current found rest
      else scan edge lbl homo opp found rest
  | AtFinalYield => Raise StopIteration
  | Finished => Raise StopIteration
  end.

Definition next (g : generator) : outcome (yielded * generator) := send g None.

(** A run of the selector against a list of replies: the values it yields,
    and how the run ends. *)
Inductive run_end : Type :=
| Awaiting            (* suspended at a yield, no reply left *)
| Ended (e : exn)     (* an exception left the generator *)
| Stuck.              (* [Blocked] or [OutOfFuel]; the selector has neither *)

Fixpoint feed (g : generator) (replies : list string) (y : yielded)
  : list yielded * run_end :=
  match replies with
  | [] => ([y], Awaiting)
  | r :: replies' =>
      match send g (Some r) with
      | Ok (y', g') => let '(ys, e) := feed g' replies' y' in (y :: ys, e)
      | Raise e => ([y], Ended e)
      | _ => ([y], Stuck)
      end
  end.

Definition run_selector (dataset : Dataset) (edge : Vertices) (lbl : Z)
    (replies : list string) : list yielded * run_end :=
  match next (pivot_on_edge dataset edge lbl) with
  | Ok (y, g) => feed g replies y
  | Raise e => ([], Ended e)
  | _ => ([], Stuck)
  end.

(** ** Seed selection *)

(** [list.sort()] sorts in place and returns [None]. *)
Definition list_sort_result (l : list Vertex) : option (list Vertex) := None.

(** [data[key]] with a tuple as the key of a list. *)
Definition index_by_tuple (data : list Vertex) (key : Vertex) : outcome Vertex :=
  Raise TypeError.

(** [data[key] = value] with a tuple as the key of a list. *)
Definition store_by_tuple (data : list Vertex) (key value : Vertex)
  : outcome (list Vertex) :=
  Raise TypeError.

(** [for i in range(lhs, rhs)]: [count] iterations starting at [i]. *)
Fixpoint partition_pass (count : nat) (i : Z) (pivot : Vertex) (data : list Vertex)
    (index : Z) : outcome (list Vertex * Z) :=
  match count with
  | O => Ok (data, index)
  | S count' =>
      x <- py_index data i ;;
      if vertex_ltb x pivot
      then
        a <- py_index data index ;;
        b <- py_index data i ;;
        data <- py_set data i a ;;
        data <- py_set data index b ;;
        partition_pass count' (i + 1) pivot data (index + 1)
      else partition_pass count' (i + 1) pivot data index
  end.

(** [while position != target]. *)
Fixpoint qsort_loop (fuel : nat) (data : list Vertex) (target lhs rhs position : Z)
  : outcome (list Vertex * Z) :=
  if position =? target then Ok (data, position)
  else
    match fuel with
    | O => OutOfFuel
    | S fuel' =>
        let lhs := if position <? target then position + 1 else lhs in
        let rhs :=
          if position <? target then rhs
          else if target <? position then position - 1 else rhs in
        pivot <- py_index data rhs ;;
        di <- partition_pass (Z.to_nat (rhs - lhs)) lhs pivot data lhs ;;
        let '(data, index) := di in
        a <- py_index data index ;;
        b <- index_by_tuple data pivot ;;
        data <- store_by_tuple data pivot a ;;
        data <- py_set data index b ;;
        qsort_loop fuel' data target lhs rhs index
    end.

Definition qsort_partition (fuel : nat) (data : Dataset) (target : Z) (lhs : Z)
    (rhs : option Z) : outcome (Z * option (list Vertex)) :=
  let len := Z.of_nat (length data) in
  let lhs := lhs in   (* lhs or 0 *)
  let rhs :=
    match rhs with
    | Some r => if r =? 0 then len else r
    | None => len
    end - 1 in
  first <- index_nat data 0 ;;
  let lbl := label first in
  let _data :=
    map coordinate (filter (fun element => label element =? lbl) (py_slice data lhs rhs)) in
  dp <- qsort_loop fuel _data target lhs rhs (-1) ;;
  let '(data, position) := dp in
  Ok (lbl, list_sort_result (py_slice data 0 position)).

Definition initialize_hull (fuel : nat) (dataset : Dataset) : outcome (Z * Vertices) :=
  first <- index_nat dataset 0 ;;
  let dimension := Z.of_nat (length (coordinate first)) in
  le <- qsort_partition fuel dataset (dimension - 1) 0 None ;;
  let '(lbl, edge) := le in
  match edge with
  | Some e => Ok (lbl, e)
  | None => Raise TypeError   (* tuple(None) *)
  end.

(** ** Facet queue

    A [queue.Queue] holds its items in FIFO order.  Its attribute
    [not_empty] is a [threading.Condition]; such an object defines neither
    [__bool__] nor [__len__], so it is true in a boolean context whatever
    the queue holds. *)

Inductive condition : Type := Condition.

Definition object_truthy (c : condition) : bool := true.

Record Queue : Type := mkQueue {
  items : list Vertices;
  not_empty : condition
}.

Definition new_queue : Queue := mkQueue [] Condition.

Definition put (q : Queue) (x : Vertices) : Queue :=
  mkQueue (items q ++ [x]) (not_empty q).

(** [q.get()]: with no item and no other thread the call waits forever. *)
Definition get (q : Queue) : outcome (Vertices * Queue) :=
  match items q with
  | [] => Blocked
  | x :: rest => Ok (x, mkQueue rest (not_empty q))
  end.

Definition queuing_face (face : Vertices) (_queue : Queue) : Queue :=
  fold_left (fun q i => put q (remove_nth i face)) (seq 0 (length face)) _queue.

(** ** Purity check *)

Fixpoint check_homogeneity (dataset : Dataset) (hull : list Vertices) (lbl : Z)
    (used_pivots : list Vertex) : outcome bool :=
  match dataset with
  | [] => Ok true
  | point :: dataset' =>
      let pivot := coordinate point in
      let _label := label point in
      if vertex_in pivot used_pivots || (_label =? lbl)
      then check_homogeneity dataset' hull lbl used_pivots
      else
        inside <- check_inside_hull hull pivot ;;
        if inside then Ok false
        else check_homogeneity dataset' hull lbl used_pivots
  end.

(** ** Gift-wrapping driver *)

(** [d[key] = True] on the keys of a dictionary. *)
Definition dict_set (keys : list Vertex) (key : Vertex) : list Vertex :=
  if vertex_in key keys then keys else keys ++ [key].

(** [processed.get(edge, d=False)]: [dict.get] takes no keyword argument. *)
Definition dict_get_keyword (keys : list Vertices) (key : Vertices) : outcome bool :=
  Raise TypeError.

(** [l.pop()] *)
Definition list_pop {A : Type} (l : list A) : outcome (list A) :=
  match l with
  | [] => Raise IndexError
  | _ => Ok (removelast l)
  end.

(** [form_face(edge, pivot)] where [edge] may still be [None]. *)
Definition form_face_opt (edge : option Vertices) (pivot : Vertex) : outcome Vertices :=
  match edge with
  | Some e => Ok (form_face e pivot)
  | None => Raise TypeError   (* list(None) *)
  end.

(** [while len(pivot) == 3]: the driver answers each suggestion, and leaves
    the loop with the final pair. *)
Fixpoint negotiate (fuel : nat) (dataset : Dataset) (lbl : Z) (used_pivots : list Vertex)
    (hull : list Vertices) (edge : Vertices) (find_pivot : generator) (pivot : yielded)
  : outcome (Vertex * bool) :=
  match pivot with
  | Final p found => Ok (p, found)
  | Suggest p plabel =>
      match fuel with
      | O => OutOfFuel
      | S fuel' =>
          if lbl =? plabel
          then
            homogeneity <-
              check_homogeneity dataset (hull ++ [form_face edge p]) lbl used_pivots ;;
            yg <- send find_pivot
                    (Some (if homogeneity then "homogeneous" else "hetrogeneous")%string) ;;
            negotiate fuel' dataset lbl used_pivots hull edge (snd yg) (fst yg)
          else
            inside <- check_inside_hull hull p ;;
            yg <- send find_pivot
                    (Some (if inside then "opposite inside" else "opposite outside")%string) ;;
            negotiate fuel' dataset lbl used_pivots hull edge (snd yg) (fst yg)
      end
  end.

Record wrap_state : Type := mkWrap {
  ws_queue : Queue;
  ws_processed : list Vertices;
  ws_hull : list Vertices;
  ws_vertices : list Vertex;
  ws_used_pivots : list Vertex;
  ws_edge : option Vertices
}.

(** One pass through the body of [while _queue.not_empty]. *)
Definition wrap_body (fuel : nat) (dataset : Dataset) (lbl : Z) (st : wrap_state)
  : outcome wrap_state :=
  let last_edge := ws_edge st in
  eq <- get (ws_queue st) ;;
  let '(edge, _queue) := eq in
  seen <- dict_get_keyword (ws_processed st) edge ;;
  if negb seen
  then
    yg <- next (pivot_on_edge dataset edge lbl) ;;
    pf <- negotiate fuel dataset lbl (ws_used_pivots st) (ws_hull st) edge (snd yg) (fst yg) ;;
    let '(pivot, found) := pf in
    r <- (if negb found
          then
            pivot' <- index_nat (ws_vertices st) 0 ;;
            hull' <- list_pop (ws_hull st) ;;
            vertices' <- list_pop (ws_vertices st) ;;
            Ok (pivot', last_edge, hull', vertices')
          else Ok (pivot, Some edge, ws_hull st, ws_vertices st)) ;;
    let '(pivot, edge', hull, vertices) := r in
    face <- form_face_opt edge' pivot ;;
    match edge' with
    | Some e =>
        Ok (mkWrap (queuing_face face _queue)
              (if existsb (vertices_eqb e) (ws_processed st) then ws_processed st
               else ws_processed st ++ [e])
              (hull ++ [face])
              (vertices ++ [pivot])
              (dict_set (ws_used_pivots st) pivot)
              edge')
    | None => Raise TypeError
    end
  else Ok (mkWrap _queue (ws_processed st) (ws_hull st) (ws_vertices st)
             (ws_used_pivots st) (Some edge)).

Fixpoint wrap_loop (fuel : nat) (dataset : Dataset) (lbl : Z) (st : wrap_state)
  : outcome wrap_state :=
  if object_truthy (not_empty (ws_queue st))
  then
    match fuel with
    | O => OutOfFuel
    | S fuel' =>
        st' <- wrap_body fuel' dataset lbl st ;;
        wrap_loop fuel' dataset lbl st'
    end
  else Ok st.

(** The state in which the loop is first entered. *)
Definition wrap_init (face : Vertices) : wrap_state :=
  mkWrap (queuing_face face new_queue) [] [face] face
    (fold_left dict_set face []) None.

(** The returned dictionary [{"faces": hull, "vertices": used_pivots}]. *)
Definition gift_wrapping (fuel : nat) (dataset : Dataset)
  : outcome (list Vertices * list Vertex) :=
  lf <- initialize_hull fuel dataset ;;
  let '(lbl, face) := lf in
  st <- wrap_loop fuel dataset lbl (wrap_init face) ;;
  Ok (ws_hull st, ws_used_pivots st).

(** ** Volume accounting *)

Fixpoint sum_volumes (origin : Vertex) (hull : list Vertices) (volume : volume_t)
  : outcome volume_t :=
  match hull with
  | [] => Ok volume
  | face :: hull' =>
      sv <- signed_volume (form_face face origin) ;;
      sum_volumes origin hull' (volume_add_exp volume (snd sv))
  end.

Definition calculate_volume (hull : list Vertices) : outcome volume_t :=
  face0 <- index_nat hull 0 ;;
  origin <- index_nat face0 0 ;;
  sum_volumes origin hull volume_zero.

(** ** Clustering loop *)

Record cluster : Type := mkCluster {
  cl_vertices : list Vertex;
  cl_points : list Vertex;
  cl_size : nat;
  cl_volume : volume_t
}.

(** [for point in dataset] in the body of [clustering]; the three lists are
    the ones the loop appends to. *)
Fixpoint partition_points (hull : list Vertices) (used_vertices : list Vertex)
    (dataset : Dataset) (_dataset : Dataset) (vertices points : list Vertex)
  : outcome (Dataset * list Vertex * list Vertex) :=
  match dataset with
  | [] => Ok (_dataset, vertices, points)
  | point :: dataset' =>
      let vertex := coordinate point in
      if vertex_in vertex used_vertices
      then partition_points hull used_vertices dataset' _dataset (vertices ++ [vertex]) points
      else
        inside <- check_inside_hull hull vertex ;;
        partition_points hull used_vertices dataset' (_dataset ++ [point]) vertices
          (if inside then points ++ [vertex] else points)
  end.

(** The body of the [while dataset] loop once [gift_wrapping] has returned
    [faces] and [vertices]: the emitted record and the next working dataset. *)
Definition peel (hull : list Vertices) (used_vertices : list Vertex) (dataset : Dataset)
  : outcome (cluster * Dataset) :=
  r <- partition_points hull used_vertices dataset [] [] [] ;;
  let '(_dataset, vertices, points) := r in
  volume <- calculate_volume hull ;;
  Ok (mkCluster vertices points (length vertices + length points) volume, _dataset).

Fixpoint clustering_loop (fuel : nat) (dataset : Dataset) (clusters : list cluster)
  : outcome (list cluster) :=
  match dataset with
  | [] => Ok clusters
  | _ :: _ =>
      match fuel with
      | O => OutOfFuel
      | S fuel' =>
          c <- gift_wrapping fuel' dataset ;;
          r <- peel (fst c) (snd c) dataset ;;
          clustering_loop fuel' (snd r) (clusters ++ [fst r])
      end
  end.

Definition clustering (fuel : nat) (dataset : Dataset) : outcome (list cluster) :=
  clustering_loop fuel dataset [].

End Geometry.

(** ** The determinant, over any ring of coefficients

    The mathematical function whose sign and log-magnitude
    [numpy.linalg.slogdet] returns, by expansion along the first column. *)

Section Determinant.

Variable R : Type.
Variables (rO rI : R) (radd rmul : R -> R -> R) (ropp : R -> R).

(** The matrix without row [i] and without its first column. *)
Definition minor (i : nat) (m : list (list R)) : list (list R) :=
  map (@tl R) (remove_nth i m).

(** [x] with the sign of position [i]. *)
Definition alt (i : nat) (x : R) : R := if Nat.even i then x else ropp x.

(** The term of row [i] in the expansion along the first column. *)
Definition cofactor_term (D : list (list R) -> R) (m : list (list R)) (i : nat) : R :=
  alt i (rmul (hd rO (nth i m [])) (D (minor i m))).

Fixpoint sum_upto (f : nat -> R) (n : nat) : R :=
  match n with
  | O => rO
  | S n' => radd (sum_upto f n') (f n')
  end.

(** The determinant of an [n] by [n] matrix given by its rows. *)
Fixpoint determinant (n : nat) (m : list (list R)) : R :=
  match n with
  | O => rI
  | S n' => sum_upto (cofactor_term (determinant n') m) (S n')
  end.

(** Sum and negation of rows; a missing component counts as zero. *)
Fixpoint vadd (u v : list R) : list R :=
  match u, v with
  | [], _ => v
  | _, [] => u
  | a :: u', b :: v' => radd a b :: vadd u' v'
  end.

Definition vneg (u : list R) : list R := map ropp u.

End Determinant.

Arguments minor {R} i m.
Arguments vadd {R} radd u v.
Arguments vneg {R} ropp u.

(** ** Exact arithmetic on integer coordinates

    An instance of the kernel for running the code: coordinates are
    integers and the determinant is computed exactly.  A log-magnitude is
    represented by the magnitude itself: [m] stands for [log m], and [0] for
    [-inf].  The logarithm is increasing, so [>] on log-magnitudes is [>] on
    magnitudes; [log m] is close to zero exactly when [m = 1], and
    [log m == 0.0] exactly when [m = 1].

    The instance serves to run the definitions on small inputs.  It is not
    a model of binary64 arithmetic: numpy rounds, overflows, and returns the
    residue of a rounded elimination where the exact determinant is zero.
    The statements below that hold for every kernel do not depend on it. *)

Module ExactZ.

(** The determinant of a square matrix of integers given by its rows. *)
Definition det (n : nat) (m : list (list Z)) : Z :=
  determinant Z 0 1 Z.add Z.mul Z.opp n m.

Definition slogdet_exact (rows : list (list Z)) : Z * Z :=
  let d := det (length rows) rows in
  (Z.sgn d, Z.abs d).

#[export] Instance exact : Numeric := {|
  scalar := Z;
  scalar_zero := 0;
  scalar_eqb := Z.eqb;
  scalar_ltb := Z.ltb;
  scalar_sub := Z.sub;
  scalar_add := Z.add;
  scalar_mul := Z.mul;
  logv := Z;
  slogdet_kernel := slogdet_exact;
  isclose0 := fun m => m =? 1;
  logv_gtb := fun a b => b <? a;
  logv_truthy := fun m => negb (m =? 1);
  volume_t := Z;
  volume_zero := 0;
  volume_add_exp := fun v m => v + m
|}.

(** A point with integer coordinates. *)
Definition pt (c : list Z) (l : Z) : @Point exact := mkPoint c l.

(** The square of side 2, its four corners of label 1, and two points of
    label 2: one at the centre, one far away. *)
Definition square_hull : list (@Vertices exact) :=
  [[[0; 0]; [2; 0]]; [[2; 0]; [2; 2]]; [[2; 2]; [0; 2]]; [[0; 2]; [0; 0]]].

Definition square_corners : list (@Vertex exact) := [[0; 0]; [2; 0]; [2; 2]; [0; 2]].

Definition square_dataset : @Dataset exact :=
  [pt [0; 0] 1; pt [2; 0] 1; pt [2; 2] 1; pt [0; 2] 1; pt [1; 1] 2; pt [10; 10] 2].

(** A triangle of label 1 with a point of label 1 inside it. *)
Definition triangle_hull : list (@Vertices exact) :=
  [[[0; 0]; [4; 0]]; [[4; 0]; [0; 4]]; [[0; 4]; [0; 0]]].

Definition triangle_dataset : @Dataset exact :=
  [pt [0; 0] 1; pt [4; 0] 1; pt [0; 4] 1; pt [1; 1] 1].

(** A cluster record over integer coordinates. *)
Definition record (vertices points : list (list Z)) (size : nat) (volume : Z)
  : @cluster exact :=
  mkCluster vertices points size volume.

End ExactZ.

Import ExactZ.

(** ** Exact arithmetic on real coordinates

    The same kernel over the real numbers, to state what the code computes
    in exact arithmetic for arbitrary coordinates.  A log-magnitude is
    [Some (ln |x|)], or [None] for [-inf]. *)

Module ExactR.

Definition sign_of (x : R) : Z :=
  if Rlt_dec 0 x then 1 else if Rlt_dec x 0 then -1 else 0.

Definition log_abs (x : R) : option R :=
  if Req_dec_T x 0 then None else Some (ln (Rabs x)).

Definition slogdet_real (rows : list (list R)) : Z * option R :=
  let d := determinant R 0%R 1%R Rplus Rmult Ropp (length rows) rows in
  (sign_of d, log_abs d).

Definition real : Numeric := {|
  scalar := R;
  scalar_zero := 0%R;
  scalar_eqb := fun x y => if Req_dec_T x y then true else false;
  scalar_ltb := fun x y => if Rlt_dec x y then true else false;
  scalar_sub := Rminus;
  scalar_add := Rplus;
  scalar_mul := Rmult;
  logv := option R;
  slogdet_kernel := slogdet_real;
  isclose0 := fun l =>
    match l with
    | Some x => if Rle_dec (Rabs x) (/ 100000000) then true else false
    | None => false
    end;
  logv_gtb := fun a b =>
    match a, b with
    | Some x, Some y => if Rlt_dec y x then true else false
    | Some _, None => true
    | None, _ => false
    end;
  logv_truthy := fun l =>
    match l with
    | Some x => if Req_dec_T x 0 then false else true
    | None => true
    end;
  volume_t := R;
  volume_zero := 0%R;
  volume_add_exp := fun v l =>
    match l with
    | Some x => (v + exp x)%R
    | None => v
    end
|}.

End ExactR.


(** ** Vocabulary of the statements *)

(** The call returns or raises: it neither waits nor loops. *)
Definition settled {A : Type} (m : outcome A) : Prop := returns m \/ raises m.

Section Vocabulary.

Context `{Numeric}.

(** Every vertex of the list has [d] components. *)
Definition dim (d : nat) (vs : Vertices) : Prop := Forall (fun v => length v = d) vs.

(** The condition under which a pivot counts as outside a facet: the
    log-volume is close to zero and the new area exceeds the old one, or the
    sign is negative. *)
Definition outside (sign : Z) (logvolume _area area : logv) : bool :=
  (isclose0 logvolume && logv_gtb _area area) || (sign <? 0).

(** The two replies about a pivot of another label. *)
Definition opposite_reply (r : string) : Prop :=
  r = "opposite inside"%string \/ r = "opposite outside"%string.

(** Two replies that are equal, or are both replies about a pivot of
    another label. *)
Definition same_up_to_opposite (r1 r2 : string) : Prop :=
  r1 = r2 \/ (opposite_reply r1 /\ opposite_reply r2).

(** Two suspended selectors that differ at most in the incumbent [opp]. *)
Inductive same_but_opp : generator -> generator -> Prop :=
| sbo_created dataset edge lbl :
    same_but_opp (Created dataset edge lbl) (Created dataset edge lbl)
| sbo_first dataset edge lbl homo opp1 opp2 :
    same_but_opp (AtFirstYield dataset edge lbl homo opp1)
                 (AtFirstYield dataset edge lbl homo opp2)
| sbo_loop edge lbl homo opp1 opp2 found current rest :
    same_but_opp (AtLoopYield edge lbl homo opp1 found current rest)
                 (AtLoopYield edge lbl homo opp2 found current rest)
| sbo_final : same_but_opp AtFinalYield AtFinalYield
| sbo_finished : same_but_opp Finished Finished.

(** Two resumptions that yield the same value and leave selectors that
    differ at most in [opp], or that end in the same way. *)
Definition related (m1 m2 : outcome (yielded * generator)) : Prop :=
  match m1, m2 with
  | Ok (y1, g1), Ok (y2, g2) => y1 = y2 /\ same_but_opp g1 g2
  | Raise e1, Raise e2 => e1 = e2
  | Blocked, Blocked => True
  | OutOfFuel, OutOfFuel => True
  | _, _ => False
  end.

(** The arithmetic of the kernel is exact: the coordinates form a
    commutative ring, and [slogdet] returns the sign and the magnitude of
    the determinant, both compatible with negation. *)
Record exact_kernel (one : scalar) (opp : scalar -> scalar)
    (sgn : scalar -> Z) (mag : scalar -> logv) : Prop := {
  ek_ring : ring_theory scalar_zero one scalar_add scalar_mul scalar_sub opp eq;
  ek_slogdet : forall rows,
    slogdet_kernel rows =
    (sgn (determinant scalar scalar_zero one scalar_add scalar_mul opp (length rows) rows),
     mag (determinant scalar scalar_zero one scalar_add scalar_mul opp (length rows) rows));
  ek_sgn_opp : forall x, sgn (opp x) = - sgn x;
  ek_mag_opp : forall x, mag (opp x) = mag x
}.

(** [numpy.array(x) - reference] for arrays of one length. *)
Definition vsub (x reference : Vertex) : list scalar :=
  map (fun ab => scalar_sub (fst ab) (snd ab)) (combine x reference).

(** The matrix of differences whose determinant [signed_volume] takes. *)
Definition difference_matrix_rows (vs : Vertices) : list (list scalar) :=
  map (fun x => vsub x (hd [] vs)) (tl vs).

(** The determinant of that matrix, for a ring with unit [one] and
    negation [opp]. *)
Definition oriented (one : scalar) (opp : scalar -> scalar) (vs : Vertices) : scalar :=
  determinant scalar scalar_zero one scalar_add scalar_mul opp
    (pred (length vs)) (difference_matrix_rows vs).

End Vocabulary.

(** ** Further vocabulary *)

Section FurtherVocabulary.

Context `{Numeric}.

(** A point counts for the purity check only when it is neither a used
    pivot nor of the hull's label. *)
Definition exempt (lbl : Z) (used_pivots : list Vertex) (p : Point) : bool :=
  vertex_in (coordinate p) used_pivots || (label p =? lbl).

(** The coordinates of the points of a dataset. *)
Definition coordinates (dataset : Dataset) : list Vertex := map coordinate dataset.

(** A yielded value that names the selector's label and a coordinate of
    the dataset. *)
Definition yield_within (dataset : Dataset) (lbl : Z) (y : yielded) : Prop :=
  match y with
  | Suggest p l => l = lbl /\ In p (coordinates dataset)
  | Final p _ => In p (coordinates dataset)
  end.

(** A selector whose incumbent, candidate and remaining points come from
    the dataset, and whose label is [lbl]. *)
Definition gen_within (dataset : Dataset) (lbl : Z) (g : generator) : Prop :=
  match g with
  | Created ds _ l => ds = dataset /\ l = lbl
  | AtFirstYield ds _ l homo _ =>
      ds = dataset /\ l = lbl /\ In (cand_pivot homo) (coordinates dataset)
  | AtLoopYield _ l homo _ _ current rest =>
      l = lbl /\ In (cand_pivot homo) (coordinates dataset) /\
      In (cand_pivot current) (coordinates dataset) /\ incl rest dataset
  | AtFinalYield => True
  | Finished => True
  end.

(** The number of values a selector can still yield. *)
Definition pending (g : generator) : nat :=
  match g with
  | Created ds _ _ => length ds + 2
  | AtFirstYield ds _ _ _ _ => length ds + 1
  | AtLoopYield _ _ _ _ _ _ rest => length rest + 1
  | AtFinalYield => 0
  | Finished => 0
  end.

(** The reply that accepts a pivot. *)
Definition is_homogeneous (r : string) : bool := String.eqb r "homogeneous".

(** Two replies that accept, or that both do not. *)
Definition same_acceptance (r1 r2 : string) : Prop :=
  is_homogeneous r1 = is_homogeneous r2.

(** The [found] flag and the incumbent pivot of a suspended selector. *)
Definition flag (g : generator) : bool :=
  match g with
  | AtLoopYield _ _ _ _ found _ _ => found
  | _ => false
  end.

Definition incumbent (g : generator) : option Vertex :=
  match g with
  | AtFirstYield _ _ _ homo _ => Some (cand_pivot homo)
  | AtLoopYield _ _ homo _ _ _ _ => Some (cand_pivot homo)
  | _ => None
  end.

(** Suspended at a suggestion, awaiting a verdict. *)
Definition awaiting_verdict (g : generator) : Prop :=
  match g with
  | AtFirstYield _ _ _ _ _ => True
  | AtLoopYield _ _ _ _ _ _ _ => True
  | _ => False
  end.




End FurtherVocabulary.

(** Four points of two labels. *)
Definition mixed_dataset : @Dataset ExactZ.exact :=
  [ExactZ.pt [0; 0] 1; ExactZ.pt [1; 0] 2; ExactZ.pt [3; 1] 1; ExactZ.pt [0; -4] 2].

(** The first suggestion of the selector over those points along the
    ridge (5, 5), and the selector suspended at it. *)
Definition first_suggestion : @yielded ExactZ.exact := Suggest [0; 0] 1.

Definition first_suspension : @generator ExactZ.exact :=
  AtFirstYield mixed_dataset [[5; 5]] 1
    (mkCandidate [0; 0] [[5; 5]; [0; 0]] 0)
    (mkCandidate [1; 0] [[5; 5]; [1; 0]] 0).

(** The corners of the square, of label 1, and one point of label 2 far
    from it. *)
Definition far_dataset : @Dataset ExactZ.exact :=
  [ExactZ.pt [0; 0] 1; ExactZ.pt [2; 0] 1; ExactZ.pt [2; 2] 1; ExactZ.pt [0; 2] 1;
   ExactZ.pt [10; 10] 2].

(** ** Loading and the entry point *)

(** [s.split(sep)] for a separator of one character: one piece more than
    the separator occurs in [s], empty pieces included. *)
Fixpoint split_on (sep : Ascii.ascii) (s : string) : list string :=
  match s with
  | EmptyString => [EmptyString]
  | String c s' =>
      if Ascii.eqb c sep then EmptyString :: split_on sep s'
      else match split_on sep s' with
           | piece :: pieces => String c piece :: pieces
           | [] => [String c EmptyString]
           end
  end.

Fixpoint occurrences (c : Ascii.ascii) (s : string) : nat :=
  match s with
  | EmptyString => O
  | String c' s' => if Ascii.eqb c' c then S (occurrences c s') else occurrences c s'
  end.

(** The character that ends a line. *)
Definition newline : Ascii.ascii := Ascii.ascii_of_nat 10.

Definition comma : Ascii.ascii := Ascii.ascii_of_nat 44.

(** A list comprehension over calls that may raise: the first exception
    leaves the comprehension. *)
Fixpoint map_outcome {A B : Type} (f : A -> outcome B) (l : list A) : outcome (list B) :=
  match l with
  | [] => Ok []
  | a :: l' =>
      b <- f a ;;
      bs <- map_outcome f l' ;;
      Ok (b :: bs)
  end.

Section Loader.

Context `{Numeric}.

(** [float(s)] and [int(s)] on the fields of the file. *)
Variable py_float : string -> outcome scalar.
Variable py_int : string -> outcome Z.

(** The lambda of [load_dataset] on the fields of one line: the
    coordinates are converted first, then the label. *)
Definition parse_point (fields : list string) : outcome Point :=
  coordinates <- map_outcome py_float (removelast fields) ;;
  lbl <- match fields with
         | [] => Raise IndexError
         | _ :: _ => py_int (last fields EmptyString)
         end ;;
  Ok (mkPoint coordinates lbl).

(** [load_dataset] on the text read from the file. *)
Definition load_dataset (text : string) : outcome Dataset :=
  map_outcome (fun line => parse_point (split_on comma line)) (split_on newline text).

Definition size_versus_number_of_clusters (clusters : list cluster) : outcome nat :=
  c <- index_nat clusters 0 ;;
  Ok (cl_size c).

Definition volume_versus_size (clusters : list cluster) : outcome volume_t :=
  c <- index_nat clusters 0 ;;
  Ok (cl_volume c).

(** The dictionary of meta-feature indicators. *)
Record features : Type := mkFeatures {
  number_of_clusters : nat;
  size_versus_number : nat;
  volume_versus : volume_t
}.

(** The text of each file that [main] opens for reading. *)
Variable file_text : string -> string.

(** [main], from the unpacking of its arguments to the indicators that it
    dumps last.  The calls to the logger and the two dumps are left out:
    they feed nothing back into the computation. *)
Definition main (fuel : nat) (argv : list string) : outcome features :=
  match argv with
  | [dataset_filename; clusters_filename; output_filename; log_file] =>
      dataset <- load_dataset (file_text dataset_filename) ;;
      clusters <- clustering fuel dataset ;;
      size <- size_versus_number_of_clusters clusters ;;
      volume <- volume_versus_size clusters ;;
      Ok (mkFeatures (length clusters) size volume)
  | _ => Raise ValueError
  end.

End Loader.

(** ** Decimal fields

    Conversions for running the loader on text whose fields are integers
    in decimal notation. *)

Module DecimalText.

Definition digit_value (c : Ascii.ascii) : option Z :=
  let n := Z.of_nat (Ascii.nat_of_ascii c) in
  if (48 <=? n) && (n <=? 57) then Some (n - 48) else None.

Fixpoint digits (s : string) (acc : Z) : outcome Z :=
  match s with
  | EmptyString => Ok acc
  | String c s' =>
      match digit_value c with
      | Some v => digits s' (10 * acc + v)
      | None => Raise ValueError
      end
  end.

(** An optional minus sign and at least one digit. *)
Definition decimal (s : string) : outcome Z :=
  match s with
  | EmptyString => Raise ValueError
  | String c s' =>
      if Ascii.eqb c (Ascii.ascii_of_nat 45)
      then match s' with
           | EmptyString => Raise ValueError
           | String _ _ => v <- digits s' 0 ;; Ok (- v)
           end
      else digits s 0
  end.

End DecimalText.

(** Two lines of integer fields. *)
Definition two_lines : string :=
  ("0,0,1" ++ String newline "2,-3,1")%string.

(** * Properties *)

Section Outcomes.

Context `{Numeric}.

Lemma settled_Ok {A : Type} (a : A) : settled (Ok a).
Proof. left. exists a. reflexivity. Qed.

Lemma settled_Raise {A : Type} (e : exn) : settled (@Raise A e).
Proof. right. exists e. reflexivity. Qed.

Lemma settled_bind {A B : Type} (m : outcome A) (k : A -> outcome B) :
  settled m -> (forall a, m = Ok a -> settled (k a)) -> settled (bind m k).
Proof.
  intros [[a Ha] | [e He]] Hk; subst; simpl.
  - apply Hk. reflexivity.
  - apply settled_Raise.
Qed.

Lemma settled_index_nat {A : Type} (l : list A) (i : nat) : settled (index_nat l i).
Proof.
  unfold index_nat. destruct (nth_error l i); [apply settled_Ok | apply settled_Raise].
Qed.

Lemma settled_array_sub (x r : Vertex) : settled (array_sub x r).
Proof.
  unfold array_sub. destruct (Nat.eqb (length x) (length r)).
  - apply settled_Ok.
  - destruct x as [|a [|a' x]]; destruct r as [|b [|b' r]];
      first [apply settled_Ok | apply settled_Raise].
Qed.

Lemma settled_difference_rows (r : Vertex) (xs : Vertices) :
  settled (difference_rows r xs).
Proof.
  induction xs as [|x xs IH]; simpl.
  - apply settled_Ok.
  - apply settled_bind; [apply settled_array_sub | intros a _].
    apply settled_bind; [exact IH | intros b _; apply settled_Ok].
Qed.

Lemma settled_numpy_matrix (rows : list (list scalar)) : settled (numpy_matrix rows).
Proof.
  unfold numpy_matrix. destruct rows as [|r rows]; [apply settled_Ok |].
  destruct (forallb _ _); [apply settled_Ok | apply settled_Raise].
Qed.

Lemma settled_matmul (a b : matrix) : settled (matmul a b).
Proof.
  unfold matmul. destruct (Nat.eqb _ _); [apply settled_Ok | apply settled_Raise].
Qed.

Lemma settled_slogdet (m : matrix) : settled (slogdet m).
Proof.
  unfold slogdet. destruct (Nat.eqb _ _); [apply settled_Ok | apply settled_Raise].
Qed.

Lemma settled_signed_volume (vs : Vertices) : settled (signed_volume vs).
Proof.
  unfold signed_volume.
  apply settled_bind; [apply settled_index_nat | intros r _].
  apply settled_bind; [apply settled_difference_rows | intros rows _].
  apply settled_bind; [apply settled_numpy_matrix | intros m _].
  apply settled_slogdet.
Qed.

Lemma settled_squared_area (vs : Vertices) : settled (squared_area vs).
Proof.
  unfold squared_area.
  apply settled_bind; [apply settled_index_nat | intros r _].
  apply settled_bind; [apply settled_difference_rows | intros rows _].
  apply settled_bind; [apply settled_numpy_matrix | intros m _].
  apply settled_bind; [apply settled_matmul | intros g _].
  apply settled_bind; [apply settled_slogdet | intros sl _].
  apply settled_Ok.
Qed.

Lemma settled_check_inside face pivot edge area :
  settled (check_inside face pivot edge area).
Proof.
  unfold check_inside.
  destruct face as [face|]; [| apply settled_Raise].
  destruct pivot as [pivot|]; [| apply settled_Raise].
  apply settled_bind.
  - destruct area as [a|]; [destruct (logv_truthy a); [apply settled_Ok |] |];
      apply settled_squared_area.
  - intros a _. apply settled_bind; [apply settled_signed_volume | intros sv _].
    apply settled_bind; [apply settled_squared_area | intros a' _].
    destruct (_ || _); apply settled_Ok.
Qed.

Lemma check_inside_hull_cons (face : Vertices) (hull : list Vertices) (pivot : Vertex) :
  check_inside_hull (face :: hull) pivot =
  bind (check_inside (Some face) (Some pivot) None None)
    (fun _ => check_inside_hull hull pivot).
Proof. reflexivity. Qed.

(** Whatever [check_inside] reports, the loop of [check_inside_hull] goes
    on: the hull predicate cannot answer [False]. *)
Lemma check_inside_hull_only_true (hull : list Vertices) (pivot : Vertex) (b : bool) :
  check_inside_hull hull pivot = Ok b -> b = true.
Proof.
  induction hull as [|face hull IH].
  - simpl. intros E. injection E as <-. reflexivity.
  - rewrite check_inside_hull_cons.
    destruct (check_inside (Some face) (Some pivot) None None) as [r| | |]; simpl;
      try discriminate.
    exact IH.
Qed.

Lemma settled_check_inside_hull (hull : list Vertices) (pivot : Vertex) :
  settled (check_inside_hull hull pivot).
Proof.
  induction hull as [|face hull IH].
  - apply settled_Ok.
  - rewrite check_inside_hull_cons.
    apply settled_bind; [apply settled_check_inside | intros r _]. exact IH.
Qed.

(** The hull predicate has two outcomes only: [True], or the exception of
    one of its calls to [check_inside]. *)
Lemma check_inside_hull_true_or_raises (hull : list Vertices) (pivot : Vertex) :
  check_inside_hull hull pivot = Ok true \/ raises (check_inside_hull hull pivot).
Proof.
  destruct (settled_check_inside_hull hull pivot) as [[b E] | R].
  - left. rewrite E. rewrite (check_inside_hull_only_true hull pivot b E). reflexivity.
  - right. exact R.
Qed.

End Outcomes.

Section Shapes.

Context `{Numeric}.

Lemma array_sub_same_length (x r : Vertex) :
  length x = length r ->
  exists row, array_sub x r = Ok row /\ length row = length r.
Proof.
  intros E. unfold array_sub. rewrite E, Nat.eqb_refl.
  eexists. split; [reflexivity |].
  rewrite length_map, length_combine. lia.
Qed.

Lemma difference_rows_dim (d : nat) (r : Vertex) (xs : Vertices) :
  length r = d -> dim d xs ->
  exists rows, difference_rows r xs = Ok rows /\ length rows = length xs /\
               Forall (fun row => length row = d) rows.
Proof.
  intros Hr Hxs. induction Hxs as [|x xs Hx Hxs IH]; simpl.
  - exists []. repeat split. constructor.
  - destruct (array_sub_same_length x r) as [row [E L]]; [congruence |].
    destruct IH as [rows [E' [L' F]]].
    rewrite E, E'. simpl. exists (row :: rows). repeat split.
    + simpl. congruence.
    + constructor; [congruence | exact F].
Qed.

Lemma numpy_matrix_dim (d : nat) (rows : list (list scalar)) :
  rows <> [] -> Forall (fun row => length row = d) rows ->
  numpy_matrix rows = Ok (mkMatrix (length rows) d rows).
Proof.
  intros Hne F. destruct rows as [|r rows]; [contradiction |].
  unfold numpy_matrix.
  assert (L : length r = d) by (inversion F; assumption).
  replace (forallb _ (r :: rows)) with true; [rewrite L; reflexivity |].
  symmetry. apply forallb_forall. intros r' Hin.
  rewrite Forall_forall in F. apply Nat.eqb_eq. rewrite (F _ Hin). congruence.
Qed.

(** The matrix that both primitives build from at least two vertices. *)
Lemma difference_matrix (d : nat) (v0 v1 : Vertex) (vs : Vertices) :
  dim d (v0 :: v1 :: vs) ->
  exists rows,
    difference_rows v0 (v1 :: vs) = Ok rows /\
    numpy_matrix rows = Ok (mkMatrix (S (length vs)) d rows).
Proof.
  intros D. inversion D as [|? ? L0 D']; subst.
  destruct (difference_rows_dim (length v0) v0 (v1 :: vs) eq_refl D') as [rows [E [L F]]].
  exists rows. split; [exact E |].
  rewrite (numpy_matrix_dim (length v0) rows); [simpl in L; rewrite L; reflexivity | | exact F].
  destruct rows; [discriminate | discriminate].
Qed.

Lemma signed_volume_square (d : nat) (vs : Vertices) :
  dim d vs -> length vs = S d -> (1 <= d)%nat -> returns (signed_volume vs).
Proof.
  intros D L Hd. destruct vs as [|v0 [|v1 vs]]; simpl in L; try lia.
  destruct (difference_matrix d v0 v1 vs D) as [rows [E M]].
  unfold signed_volume. cbn [bind index_nat nth_error tl]. rewrite E. cbn [bind].
  rewrite M. cbn [bind]. unfold slogdet. simpl nrows. simpl ncols.
  replace (Nat.eqb (S (length vs)) d) with true by (symmetry; apply Nat.eqb_eq; lia).
  eexists. reflexivity.
Qed.

Lemma signed_volume_not_square (d : nat) (vs : Vertices) :
  dim d vs -> length vs <> S d -> raises (signed_volume vs).
Proof.
  intros D L. destruct vs as [|v0 [|v1 vs]].
  - exists IndexError. reflexivity.
  - exists LinAlgError. reflexivity.
  - destruct (difference_matrix d v0 v1 vs D) as [rows [E M]].
    unfold signed_volume. cbn [bind index_nat nth_error tl]. rewrite E. cbn [bind].
    rewrite M. cbn [bind]. unfold slogdet. simpl nrows. simpl ncols.
    replace (Nat.eqb (S (length vs)) d) with false
      by (symmetry; apply Nat.eqb_neq; simpl in L; lia).
    exists LinAlgError. reflexivity.
Qed.

Lemma signed_volume_not_square_error (d : nat) (vs : Vertices) :
  dim d vs -> vs <> [] -> length vs <> S d -> signed_volume vs = Raise LinAlgError.
Proof.
  intros D Hne L. destruct vs as [|v0 [|v1 vs]]; [contradiction | reflexivity |].
  destruct (difference_matrix d v0 v1 vs D) as [rows [E M]].
  unfold signed_volume. cbn [bind index_nat nth_error tl]. rewrite E. cbn [bind].
  rewrite M. cbn [bind]. unfold slogdet. simpl nrows. simpl ncols.
  replace (Nat.eqb (S (length vs)) d) with false
    by (symmetry; apply Nat.eqb_neq; simpl in L; lia).
  reflexivity.
Qed.

Lemma squared_area_returns (d : nat) (vs : Vertices) :
  dim d vs -> (2 <= length vs)%nat -> returns (squared_area vs).
Proof.
  intros D L. destruct vs as [|v0 [|v1 vs]]; simpl in L; try lia.
  destruct (difference_matrix d v0 v1 vs D) as [rows [E M]].
  unfold squared_area. cbn [bind index_nat nth_error tl]. rewrite E. cbn [bind].
  rewrite M. cbn [bind]. unfold matmul, transpose. simpl nrows. simpl ncols.
  rewrite Nat.eqb_refl. cbn [bind]. unfold slogdet. simpl nrows. simpl ncols.
  rewrite Nat.eqb_refl. cbn [bind]. eexists. reflexivity.
Qed.

End Shapes.

Section Predicates.

Context `{Numeric}.

(** C2, general form.  [check_inside_hull] answers [True] for every hull and
    pivot on which [check_inside] returns at all, whatever the [inside]
    components are: the loop tests the returned tuple, which is never
    empty. *)
Theorem check_inside_hull_accepts_every_pivot (hull : list Vertices) (pivot : Vertex) :
  Forall (fun face => returns (check_inside (Some face) (Some pivot) None None)) hull ->
  check_inside_hull hull pivot = Ok true.
Proof.
  intros F. induction F as [|face hull [r E] F IH].
  - reflexivity.
  - rewrite check_inside_hull_cons, E. exact IH.
Qed.

(** X24.  For a facet of [d] vertices, a pivot and a non-empty edge
    in dimension [d], and an area other than [0.0], [check_inside] returns
    [(False, face', area')] exactly when the log-volume is close to zero and
    [area' > area], or the sign is negative, and [(True, face', area')]
    otherwise, where [face'] is the edge extended by the pivot and [area']
    its squared area. *)
Theorem check_inside_decides (d : nat) (face : Vertices) (pivot : Vertex)
    (edge : Vertices) (area : logv) :
  (1 <= d)%nat -> length face = d -> dim d face -> length pivot = d -> dim d edge ->
  edge <> [] -> logv_truthy area = true ->
  exists sign logvolume _area,
    signed_volume (form_face face pivot) = Ok (sign, logvolume) /\
    squared_area (form_face edge pivot) = Ok _area /\
    check_inside (Some face) (Some pivot) (Some edge) (Some area) =
      Ok (negb (outside sign logvolume _area area), form_face edge pivot, _area).
Proof.
  intros Hd Lf Df Lp De Hne Ha.
  assert (Dp : dim d [pivot]) by (constructor; [exact Lp | constructor]).
  destruct (signed_volume_square d (form_face face pivot)) as [[sign logvolume] Ev].
  { apply Forall_app. split; assumption. }
  { unfold form_face. rewrite length_app. simpl. lia. }
  { exact Hd. }
  destruct (squared_area_returns d (form_face edge pivot)) as [_area Ea].
  { apply Forall_app. split; assumption. }
  { unfold form_face. rewrite length_app. simpl.
    destruct edge; [contradiction | simpl; lia]. }
  exists sign, logvolume, _area. repeat split; try assumption.
  unfold check_inside. rewrite Ha.
  replace (truthy_len (length edge)) with true
    by (destruct edge; [contradiction | reflexivity]).
  cbn [bind]. rewrite Ev. cbn [bind fst snd]. rewrite Ea. cbn [bind].
  unfold outside. destruct (_ || _); reflexivity.
Qed.

(** C7.  An [area] of [0.0] is taken for a missing argument.  For a facet
    of [d >= 2] vertices, a pivot and a non-empty edge in dimension [d],
    and an area for which [bool(area)] is false, [check_inside] decides by
    comparing [area'] with the squared area of the facet itself, and not
    with the area it was given. *)
Theorem check_inside_discards_zero_area (d : nat) (face : Vertices) (pivot : Vertex)
    (edge : Vertices) (area : logv) :
  (2 <= d)%nat -> length face = d -> dim d face -> length pivot = d -> dim d edge ->
  edge <> [] -> logv_truthy area = false ->
  exists sign logvolume own_area _area,
    signed_volume (form_face face pivot) = Ok (sign, logvolume) /\
    squared_area face = Ok own_area /\
    squared_area (form_face edge pivot) = Ok _area /\
    check_inside (Some face) (Some pivot) (Some edge) (Some area) =
      Ok (negb (outside sign logvolume _area own_area), form_face edge pivot, _area) /\
    check_inside (Some face) (Some pivot) (Some edge) (Some area) =
      check_inside (Some face) (Some pivot) (Some edge) None.
Proof.
  intros Hd Lf Df Lp De Hne Ha.
  assert (Dp : dim d [pivot]) by (constructor; [exact Lp | constructor]).
  destruct (signed_volume_square d (form_face face pivot)) as [[sign logvolume] Ev].
  { apply Forall_app. split; assumption. }
  { unfold form_face. rewrite length_app. simpl. lia. }
  { lia. }
  destruct (squared_area_returns d face Df) as [own_area Eo]; [lia |].
  destruct (squared_area_returns d (form_face edge pivot)) as [_area Ea].
  { apply Forall_app. split; assumption. }
  { unfold form_face. rewrite length_app. simpl.
    destruct edge; [contradiction | simpl; lia]. }
  exists sign, logvolume, own_area, _area. repeat split; try assumption.
  - unfold check_inside. rewrite Ha, Eo.
    replace (truthy_len (length edge)) with true
      by (destruct edge; [contradiction | reflexivity]).
    cbn [bind]. rewrite Ev. cbn [bind fst snd]. rewrite Ea. cbn [bind].
    unfold outside. destruct (_ || _); reflexivity.
  - unfold check_inside. rewrite Ha. reflexivity.
Qed.

(** C8, amended.  For vertices of dimension [d >= 2], [signed_volume] raises
    when it is given other than [d + 1] of them: [IndexError] for no vertex,
    and numpy's [LinAlgError] for a matrix that is not square otherwise.
    [squared_area] has no such check: it raises [IndexError] on the empty
    list and returns a value for any two or more vertices. *)
Theorem cardinality_checks (d : nat) (vs : Vertices) :
  (2 <= d)%nat -> dim d vs ->
  (vs = [] -> signed_volume vs = Raise IndexError) /\
  (vs <> [] -> length vs <> S d -> signed_volume vs = Raise LinAlgError) /\
  ((2 <= length vs)%nat -> returns (squared_area vs)) /\
  (vs = [] -> squared_area vs = Raise IndexError).
Proof.
  intros Hd D. repeat split.
  - intros ->. reflexivity.
  - intros Hne L. exact (signed_volume_not_square_error d vs D Hne L).
  - intros L. exact (squared_area_returns d vs D L).
  - intros ->. reflexivity.
Qed.

End Predicates.

Section Witnesses.

(** C2 on a facet of the plane and a pivot below it: [check_inside] reports
    the pivot outside, and the hull predicate accepts it. *)
Lemma check_inside_hull_accepts_every_pivot_witness :
  check_inside (Some [[0; 0]; [1; 0]]) (Some [0; -1]) None None
    = Ok (false, [[0; 0]; [0; -1]], 0) /\
  check_inside_hull [[[0; 0]; [1; 0]]] [0; -1] = Ok true.
Proof.
  split; [reflexivity |].
  apply (@check_inside_hull_accepts_every_pivot exact).
  constructor; [| constructor].
  exists (false, [[0; 0]; [0; -1]], 0). reflexivity.
Defined.

(** An empty edge is taken for a missing one in the same way: [face'] is
    then built from [face[:-1]], not from the edge that was passed. *)
Example check_inside_empty_edge_is_replaced :
  form_face [] [0; 1] = [[0; 1]] /\
  check_inside (Some [[0; 0]; [1; 0]]) (Some [0; 1]) (Some []) (Some 5)
    = Ok (true, [[0; 0]; [0; 1]], 0).
Proof. split; reflexivity. Qed.

(** C7 on the facet ((0, 0), (1, 1)), the pivot (-6, -5), the ridge
    [((0, 0),)] and the area [0.0] (magnitude 1): the answer is that of the
    call without an area. *)
Lemma check_inside_discards_zero_area_witness :
  logv_truthy 1 = false /\
  exists sign logvolume own_area _area,
    signed_volume (form_face [[0; 0]; [1; 1]] [-6; -5]) = Ok (sign, logvolume) /\
    squared_area [[0; 0]; [1; 1]] = Ok own_area /\
    squared_area (form_face [[0; 0]] [-6; -5]) = Ok _area /\
    check_inside (Some [[0; 0]; [1; 1]]) (Some [-6; -5]) (Some [[0; 0]]) (Some 1) =
      Ok (negb (outside sign logvolume _area own_area),
          form_face [[0; 0]] [-6; -5], _area) /\
    check_inside (Some [[0; 0]; [1; 1]]) (Some [-6; -5]) (Some [[0; 0]]) (Some 1) =
      check_inside (Some [[0; 0]; [1; 1]]) (Some [-6; -5]) (Some [[0; 0]]) None.
Proof.
  split; [reflexivity |].
  apply (@check_inside_discards_zero_area exact 2 [[0; 0]; [1; 1]] [-6; -5] [[0; 0]] 1).
  - lia.
  - reflexivity.
  - repeat constructor.
  - reflexivity.
  - repeat constructor.
  - discriminate.
  - reflexivity.
Defined.

(** X24 on a facet of the plane, a pivot below it, the ridge
    [((0, 0),)] and the area [log 5]: the sign is negative, so the pivot is
    outside. *)
Lemma check_inside_decides_witness :
  (1 <= 2)%nat /\
  exists sign logvolume _area,
    signed_volume (form_face [[0; 0]; [1; 0]] [0; -1]) = Ok (sign, logvolume) /\
    squared_area (form_face [[0; 0]] [0; -1]) = Ok _area /\
    check_inside (Some [[0; 0]; [1; 0]]) (Some [0; -1]) (Some [[0; 0]]) (Some 5) =
      Ok (negb (outside sign logvolume _area 5), form_face [[0; 0]] [0; -1], _area).
Proof.
  split; [lia |].
  apply (@check_inside_decides exact 2 [[0; 0]; [1; 0]] [0; -1] [[0; 0]] 5).
  - lia.
  - reflexivity.
  - repeat constructor.
  - reflexivity.
  - repeat constructor.
  - discriminate.
  - reflexivity.
Defined.

(** C8 as stated fails for [squared_area]: three vertices of the plane, one
    more than a facet has, give a value and no error. *)
Lemma squared_area_accepts_three_vertices_in_the_plane :
  squared_area [[0; 0]; [1; 0]; [0; 1]] = Ok 1.
Proof. reflexivity. Qed.

(** C8, amended, on four vertices of the plane: too many for either
    primitive. *)
Lemma cardinality_checks_witness :
  (2 <= 2)%nat /\
  ([[0; 0]; [1; 0]; [0; 1]; [1; 1]] = [] ->
   signed_volume [[0; 0]; [1; 0]; [0; 1]; [1; 1]] = Raise IndexError) /\
  ([[0; 0]; [1; 0]; [0; 1]; [1; 1]] <> [] ->
   length [[0; 0]; [1; 0]; [0; 1]; [1; 1]] <> 3%nat ->
   signed_volume [[0; 0]; [1; 0]; [0; 1]; [1; 1]] = Raise LinAlgError) /\
  ((2 <= length [[0; 0]; [1; 0]; [0; 1]; [1; 1]])%nat ->
   returns (squared_area [[0; 0]; [1; 0]; [0; 1]; [1; 1]])) /\
  ([[0; 0]; [1; 0]; [0; 1]; [1; 1]] = [] ->
   squared_area [[0; 0]; [1; 0]; [0; 1]; [1; 1]] = Raise IndexError).
Proof.
  split; [lia |].
  apply (@cardinality_checks exact 2 [[0; 0]; [1; 0]; [0; 1]; [1; 1]]).
  - lia.
  - repeat constructor.
Defined.

End Witnesses.

Section Seed.

Context `{Numeric}.

Lemma py_index_beyond {A : Type} (l : list A) (i : Z) :
  Z.of_nat (length l) <= i -> py_index l i = Raise IndexError.
Proof.
  intros Hi. unfold py_index.
  replace (i <? 0) with false by (symmetry; apply Z.ltb_ge; lia).
  replace (i <? Z.of_nat (length l)) with false by (symmetry; apply Z.ltb_ge; lia).
  rewrite andb_false_r. reflexivity.
Qed.

Lemma py_slice_length {A : Type} (l : list A) (lo hi : Z) :
  Z.of_nat (length (py_slice l lo hi)) <=
  Z.max 0 (clamp (Z.of_nat (length l)) hi - clamp (Z.of_nat (length l)) lo).
Proof.
  unfold py_slice. rewrite length_firstn. lia.
Qed.

(** The first pass through the loop of [qsort_partition] reads [data[rhs]];
    when the list is not longer than [rhs] the read is out of range. *)
Lemma qsort_loop_out_of_range (fuel : nat) (data : list Vertex) (target lhs rhs : Z) :
  0 <= target -> Z.of_nat (length data) <= rhs ->
  qsort_loop (S fuel) data target lhs rhs (-1) = Raise IndexError.
Proof.
  intros Ht Hr. cbn [qsort_loop].
  replace (-1 =? target) with false by (symmetry; apply Z.eqb_neq; lia).
  replace (-1 <? target) with true by (symmetry; apply Z.ltb_lt; lia).
  rewrite (py_index_beyond data rhs Hr). reflexivity.
Qed.

(** The list that [qsort_partition] filters out of [data[lhs:rhs]] is shorter
    than the dataset, and [rhs] is the last index of the dataset. *)
Lemma filtered_is_short (data : Dataset) (lbl : Z) :
  data <> [] ->
  Z.of_nat (length (map coordinate
     (filter (fun element => label element =? lbl)
        (py_slice data 0 (Z.of_nat (length data) - 1)))))
  <= Z.of_nat (length data) - 1.
Proof.
  intros Hne. rewrite length_map.
  pose proof (filter_length_le (fun element => label element =? lbl)
                (py_slice data 0 (Z.of_nat (length data) - 1))) as Hf.
  pose proof (py_slice_length data 0 (Z.of_nat (length data) - 1)) as Hs.
  assert (0 < Z.of_nat (length data)) by (destruct data; [contradiction | simpl; lia]).
  unfold clamp in Hs.
  replace (0 <? 0) with false in Hs by reflexivity.
  replace (Z.of_nat (length data) - 1 <? 0) with false in Hs
    by (symmetry; apply Z.ltb_ge; lia).
  lia.
Qed.

Lemma qsort_partition_raises (fuel : nat) (data : Dataset) (target : Z) :
  0 <= target -> qsort_partition (S fuel) data target 0 None = Raise IndexError.
Proof.
  intros Ht. unfold qsort_partition.
  destruct data as [|p data]; [reflexivity |].
  cbn [bind index_nat nth_error].
  rewrite qsort_loop_out_of_range; [reflexivity | exact Ht |].
  apply filtered_is_short. discriminate.
Qed.

(** How seed selection ends, for every dataset. *)
Lemma initialize_hull_outcome (fuel : nat) (dataset : Dataset) :
  initialize_hull (S fuel) dataset =
  Raise (match dataset with
         | [] => IndexError
         | p :: _ => match coordinate p with
                     | [] => TypeError
                     | _ :: _ => IndexError
                     end
         end).
Proof.
  unfold initialize_hull. destruct dataset as [|p dataset]; [reflexivity |].
  cbn [bind index_nat nth_error].
  destruct (coordinate p) as [|x c] eqn:Ec.
  - reflexivity.
  - rewrite qsort_partition_raises; [reflexivity |]. simpl length. lia.
Qed.

(** C5.  Seed selection returns for no dataset: with coordinates of one or
    more components the partial sort reads past the end of the filtered
    list on its first pass, and with empty coordinates it returns the [None]
    of [list.sort()], which [tuple] refuses. *)
Theorem initialize_hull_raises (fuel : nat) (dataset : Dataset) :
  initialize_hull (S fuel) dataset =
  Raise (match dataset with
         | [] => IndexError
         | p :: _ => match coordinate p with
                     | [] => TypeError
                     | _ :: _ => IndexError
                     end
         end).
Proof. exact (initialize_hull_outcome fuel dataset). Qed.

End Seed.

Section Selector.

Context `{Numeric}.

Lemma advance_all (cond : Point -> bool) (suffix : list Point) (index : nat) :
  Forall (fun p => cond p = true) suffix ->
  advance cond suffix index = (index + length suffix)%nat.
Proof.
  intros F. revert index. induction F as [|p suffix Hp F IH]; intros index; simpl.
  - lia.
  - rewrite Hp, IH. lia.
Qed.

Lemma advance_stops (cond : Point -> bool) (p : Point) (suffix : list Point) (index : nat) :
  cond p = false -> advance cond (p :: suffix) index = index.
Proof. intros Hp. simpl. rewrite Hp. reflexivity. Qed.

Lemma index_nat_length {A : Type} (l : list A) : index_nat l (length l) = Raise IndexError.
Proof.
  unfold index_nat. replace (nth_error l (length l)) with (@None A); [reflexivity |].
  symmetry. apply nth_error_None. lia.
Qed.

(** Whatever the shapes of the coordinates and of the edge, a dataset of a
    single label never gets the selector to its first [yield]. *)
Lemma pivot_on_edge_single_label_never_yields (dataset : Dataset) (edge : Vertices)
    (lbl : Z) :
  Forall (fun p => label p = lbl) dataset ->
  raises (next (pivot_on_edge dataset edge lbl)).
Proof.
  intros Hl. unfold next, pivot_on_edge, send, pivot_on_edge_start.
  destruct dataset as [|p dataset]; [exists IndexError; reflexivity |].
  assert (Hc : Forall (fun q => (label q =? lbl) = true) (p :: dataset)).
  { eapply Forall_impl; [| exact Hl]. intros q Hq. apply Z.eqb_eq. exact Hq. }
  rewrite advance_stops.
  2:{ inversion Hc as [|? ? Hp _]; subst. rewrite Hp. reflexivity. }
  cbn [bind index_nat nth_error skipn].
  destruct (settled_squared_area (form_face edge (coordinate p))) as [[a Ea] | [e Ee]].
  - rewrite Ea. cbn [bind]. rewrite (advance_all _ (p :: dataset) 0 Hc).
    change (0 + length (p :: dataset))%nat with (length (p :: dataset)).
    rewrite index_nat_length. exists IndexError. reflexivity.
  - rewrite Ee. exists e. reflexivity.
Qed.

(** C6.  On a dataset whose points all carry the selector's label, in
    dimension [d] and for a non-empty edge, the code before the first
    [yield] looks for a point of another label, runs past the end of the
    dataset and reads [dataset[len(dataset)]]: the first [next] raises
    [IndexError] and nothing is ever yielded. *)
Theorem pivot_on_edge_single_label_raises (d : nat) (dataset : Dataset)
    (edge : Vertices) (lbl : Z) :
  Forall (fun p => label p = lbl) dataset ->
  dim d (map coordinate dataset) -> dim d edge -> edge <> [] ->
  next (pivot_on_edge dataset edge lbl) = Raise IndexError.
Proof.
  intros Hl Dd De Hne. unfold next, pivot_on_edge, send, pivot_on_edge_start.
  destruct dataset as [|p dataset]; [reflexivity |].
  assert (Hc : Forall (fun q => (label q =? lbl) = true) (p :: dataset)).
  { eapply Forall_impl; [| exact Hl]. intros q Hq. apply Z.eqb_eq. exact Hq. }
  rewrite advance_stops.
  2:{ inversion Hc as [|? ? Hp _]; subst. rewrite Hp. reflexivity. }
  cbn [bind index_nat nth_error skipn].
  destruct (squared_area_returns d (form_face edge (coordinate p))) as [a Ea].
  { apply Forall_app. split; [exact De |].
    apply Forall_inv in Dd. constructor; [exact Dd | constructor]. }
  { unfold form_face. rewrite length_app. simpl.
    destruct edge; [contradiction | simpl; lia]. }
  rewrite Ea. cbn [bind].
  rewrite (advance_all _ (p :: dataset) 0 Hc).
  change (0 + length (p :: dataset))%nat with (length (p :: dataset)).
  rewrite index_nat_length. reflexivity.
Qed.

End Selector.

Section SelectorWitness.

(** C6 on three points of label 1 and the ridge [((0, 0),)]. *)
Lemma pivot_on_edge_single_label_raises_witness :
  Forall (fun p => label p = 1) [pt [0; 0] 1; pt [1; 0] 1; pt [0; 1] 1] /\
  next (pivot_on_edge [pt [0; 0] 1; pt [1; 0] 1; pt [0; 1] 1] [[0; 0]] 1)
    = Raise IndexError.
Proof.
  split; [repeat constructor |].
  apply (@pivot_on_edge_single_label_raises exact 2).
  - repeat constructor.
  - repeat constructor.
  - repeat constructor.
  - discriminate.
Defined.

(** The same happens when a point of another label comes first only. *)
Example pivot_on_edge_trailing_label_raises :
  run_selector [pt [5; 5] 2; pt [0; 0] 1; pt [1; 0] 1] [[0; 0]] 1 []
    = ([], Ended IndexError).
Proof. reflexivity. Qed.

End SelectorWitness.

Section Noninterference.

Context `{Numeric}.

Lemma scan_ignores_opp (edge : Vertices) (lbl : Z) (homo opp1 opp2 : candidate)
    (found : bool) (rest : list Point) :
  related (scan edge lbl homo opp1 found rest) (scan edge lbl homo opp2 found rest).
Proof.
  induction rest as [|point rest IH]; cbn [scan].
  - split; [reflexivity | constructor].
  - destruct (check_inside _ _ _ _) as [[[updated face] area]| e | |]; cbn [bind];
      try exact I; try reflexivity.
    destruct (if label point =? lbl then negb updated else updated).
    + split; [reflexivity | constructor].
    + exact IH.
Qed.

Lemma opposite_not_homogeneous (r : string) :
  opposite_reply r -> is_verdict (Some r) "homogeneous" = false.
Proof. intros [-> | ->]; reflexivity. Qed.

Lemma send_related (g1 g2 : generator) (r1 r2 : string) :
  same_but_opp g1 g2 -> same_up_to_opposite r1 r2 ->
  related (send g1 (Some r1)) (send g2 (Some r2)).
Proof.
  intros G R. destruct G; cbn [send]; try reflexivity.
  - destruct R as [-> | [O1 O2]].
    + apply scan_ignores_opp.
    + rewrite (opposite_not_homogeneous r1 O1), (opposite_not_homogeneous r2 O2).
      apply scan_ignores_opp.
  - destruct R as [-> | [O1 O2]].
    + destruct (is_verdict (Some r2) "homogeneous"); [apply scan_ignores_opp |].
      destruct (is_verdict (Some r2) "opposite inside"); apply scan_ignores_opp.
    + rewrite (opposite_not_homogeneous r1 O1), (opposite_not_homogeneous r2 O2).
      destruct (is_verdict (Some r1) "opposite inside");
        destruct (is_verdict (Some r2) "opposite inside"); apply scan_ignores_opp.
Qed.

Lemma feed_related (g1 g2 : generator) (rs1 rs2 : list string) (y : yielded) :
  same_but_opp g1 g2 -> Forall2 same_up_to_opposite rs1 rs2 ->
  feed g1 rs1 y = feed g2 rs2 y.
Proof.
  intros G F. revert g1 g2 y G.
  induction F as [|r1 r2 rs1 rs2 R F IH]; intros g1 g2 y G; cbn [feed].
  - reflexivity.
  - pose proof (send_related g1 g2 r1 r2 G R) as S.
    destruct (send g1 (Some r1)) as [[y1 g1']| e1 | |];
      destruct (send g2 (Some r2)) as [[y2 g2']| e2 | |];
      cbn [related] in S; try contradiction; try reflexivity.
    + destruct S as [-> G']. rewrite (IH g1' g2' y2 G'). reflexivity.
    + subst. reflexivity.
Qed.

(** C10.  Two runs of [pivot_on_edge] on the same dataset, edge and label,
    answered by reply sequences that differ only in exchanging
    'opposite inside' and 'opposite outside', yield the same candidates and
    end with the same [(pivot, found)] pair (or the same exception): the
    incumbent [opp] is written and never read. *)
Theorem pivot_on_edge_ignores_opposite_replies (dataset : Dataset) (edge : Vertices)
    (lbl : Z) (replies1 replies2 : list string) :
  Forall2 same_up_to_opposite replies1 replies2 ->
  run_selector dataset edge lbl replies1 = run_selector dataset edge lbl replies2.
Proof.
  intros F. unfold run_selector.
  destruct (next (pivot_on_edge dataset edge lbl)) as [[y g]| e | |] eqn:E;
    try reflexivity.
  apply feed_related; [| exact F].
  unfold next, pivot_on_edge, send, pivot_on_edge_start in E.
  destruct (index_nat dataset _) as [p| | |]; cbn [bind] in E; try discriminate.
  destruct (squared_area _) as [a| | |]; cbn [bind] in E; try discriminate.
  destruct (index_nat dataset _) as [q| | |]; cbn [bind] in E; try discriminate.
  destruct (squared_area _) as [b| | |]; cbn [bind] in E; try discriminate.
  injection E as <- <-. constructor.
Qed.

End Noninterference.

Section NoninterferenceWitness.

(** C10 on four points of two labels: the second reply is
    'opposite inside' in one run and 'opposite outside' in the other. *)
Lemma pivot_on_edge_ignores_opposite_replies_witness :
  Forall2 same_up_to_opposite
    ["homogeneous"; "opposite inside"; "homogeneous"]%string
    ["homogeneous"; "opposite outside"; "homogeneous"]%string /\
  run_selector [pt [0; 0] 1; pt [1; 0] 2; pt [3; 1] 1; pt [0; -4] 2] [[5; 5]] 1
    ["homogeneous"; "opposite inside"; "homogeneous"]%string
  = run_selector [pt [0; 0] 1; pt [1; 0] 2; pt [3; 1] 1; pt [0; -4] 2] [[5; 5]] 1
    ["homogeneous"; "opposite outside"; "homogeneous"]%string.
Proof.
  assert (F : Forall2 same_up_to_opposite
    ["homogeneous"; "opposite inside"; "homogeneous"]%string
    ["homogeneous"; "opposite outside"; "homogeneous"]%string).
  { constructor; [left; reflexivity |].
    constructor; [right; split; [left | right]; reflexivity |].
    constructor; [left; reflexivity | constructor]. }
  split; [exact F |].
  exact (@pivot_on_edge_ignores_opposite_replies exact _ _ _ _ _ F).
Defined.

(** The run of the witness: three candidates, then the final pair. *)
Example run_selector_example :
  run_selector [pt [0; 0] 1; pt [1; 0] 2; pt [3; 1] 1; pt [0; -4] 2] [[5; 5]] 1
    ["homogeneous"; "opposite inside"; "homogeneous"]%string
  = ([Suggest [0; 0] 1; Suggest [1; 0] 1; Suggest [0; -4] 1; Final [0; -4] true],
     Awaiting).
Proof. reflexivity. Qed.

End NoninterferenceWitness.

Section Peeling.

Context `{Numeric}.

(** What the loop over the dataset leaves in its three lists. *)
Lemma partition_points_lists (hull : list Vertices) (used : list Vertex) (dataset : Dataset) :
  forall (_dataset : Dataset) (vertices points : list Vertex) r,
  partition_points hull used dataset _dataset vertices points = Ok r ->
  r = (_dataset ++ filter (fun p => negb (vertex_in (coordinate p) used)) dataset,
       vertices ++ map coordinate (filter (fun p => vertex_in (coordinate p) used) dataset),
       points ++ map coordinate
                   (filter (fun p => negb (vertex_in (coordinate p) used)) dataset)).
Proof.
  induction dataset as [|point dataset IH]; intros _dataset vertices points r; cbn [partition_points].
  - intros E. injection E as <-. cbn [filter map]. rewrite !app_nil_r. reflexivity.
  - cbn [filter]. destruct (vertex_in (coordinate point) used); cbn [negb].
    + intros E. apply IH in E. rewrite E. cbn [map]. rewrite <- app_assoc. reflexivity.
    + destruct (check_inside_hull hull (coordinate point)) as [inside| | |] eqn:Ei;
        cbn [bind]; try discriminate.
      apply check_inside_hull_only_true in Ei. subst inside.
      intros E. apply IH in E. rewrite E. cbn [map]. rewrite <- !app_assoc. reflexivity.
Qed.

Lemma peel_lists (hull : list Vertices) (used : list Vertex) (dataset : Dataset)
    (c : cluster) (rest : Dataset) :
  peel hull used dataset = Ok (c, rest) ->
  rest = filter (fun p => negb (vertex_in (coordinate p) used)) dataset /\
  cl_vertices c = map coordinate (filter (fun p => vertex_in (coordinate p) used) dataset) /\
  cl_points c = map coordinate rest.
Proof.
  unfold peel. intros E.
  destruct (partition_points hull used dataset [] [] []) as [[[d v] p]| | |] eqn:Ep;
    cbn [bind] in E; try discriminate.
  apply partition_points_lists in Ep. cbn [app] in Ep. injection Ep as -> -> ->.
  destruct (calculate_volume hull) as [vol| | |]; cbn [bind] in E; try discriminate.
  injection E as <- <-. cbn [cl_vertices cl_points]. repeat split.
Qed.

(** The kept and the dropped elements of a list, together, are the list. *)
Lemma filter_split_permutation {A : Type} (keep : A -> bool) (xs : list A) :
  Permutation xs (filter keep xs ++ filter (fun x => negb (keep x)) xs).
Proof.
  induction xs as [|x xs IH]; cbn [filter]; [constructor |].
  destruct (keep x); cbn [negb app];
    [constructor; exact IH | apply Permutation_cons_app; exact IH].
Qed.

(** X21.  Given a hull and its used vertices, the body of the loop of
    [clustering] lists in [points] the coordinate of every point that is not
    a used vertex, whatever its label and wherever it lies: the test that
    should keep foreign points out is [check_inside_hull], which always
    answers [True]. *)
Theorem peel_lists_every_remaining_point (hull : list Vertices) (used : list Vertex)
    (dataset : Dataset) (c : cluster) (rest : Dataset) (p : Point) :
  peel hull used dataset = Ok (c, rest) ->
  In p dataset -> vertex_in (coordinate p) used = false ->
  In (coordinate p) (cl_points c).
Proof.
  intros E Hin Hu. apply peel_lists in E. destruct E as [-> [_ ->]].
  apply in_map. apply filter_In. split; [exact Hin |]. rewrite Hu. reflexivity.
Qed.

(** X22.  Given a hull and its used vertices, the body of the loop of
    [clustering] sends each point either to [vertices] or to the next
    working dataset, so that the coordinates of the two together are those
    of the working dataset; every coordinate it lists in [points] belongs to
    a point that stays in the next working dataset. *)
Theorem peel_keeps_listed_points (hull : list Vertices) (used : list Vertex)
    (dataset : Dataset) (c : cluster) (rest : Dataset) :
  peel hull used dataset = Ok (c, rest) ->
  Permutation (map coordinate dataset) (cl_vertices c ++ map coordinate rest) /\
  incl (cl_points c) (map coordinate rest).
Proof.
  intros E. apply peel_lists in E. destruct E as [-> [-> ->]]. split.
  - rewrite <- map_app. apply Permutation_map. apply filter_split_permutation.
  - apply incl_refl.
Qed.

End Peeling.

Section Driver.

Context `{Numeric}.

(** X23.  From whatever state it is started in, the loop of
    [gift_wrapping] is entered whatever the ridge queue holds, since its
    guard is the truth value of the queue's condition object.  With an empty
    queue [get] then waits for ever; with a ridge in the queue the pass ends
    at [processed.get(edge, d=False)]. *)
Theorem wrap_loop_does_not_test_the_queue (fuel : nat) (dataset : Dataset) (lbl : Z)
    (st : wrap_state) :
  wrap_loop (S fuel) dataset lbl st =
  match items (ws_queue st) with
  | [] => Blocked
  | _ :: _ => Raise TypeError
  end.
Proof.
  cbn [wrap_loop object_truthy]. unfold wrap_body, get.
  destruct (items (ws_queue st)); reflexivity.
Qed.

(** No dataset gets through [gift_wrapping]: seed selection raises first. *)
Lemma gift_wrapping_raises (fuel : nat) (dataset : Dataset) :
  raises (gift_wrapping (S fuel) dataset).
Proof.
  unfold gift_wrapping. rewrite initialize_hull_outcome. eexists. reflexivity.
Qed.

(** So [clustering] emits no record for a dataset that has a point. *)
Lemma clustering_raises (fuel : nat) (p : Point) (dataset : Dataset) :
  raises (clustering (S (S fuel)) (p :: dataset)).
Proof.
  unfold clustering. cbn [clustering_loop].
  destruct (gift_wrapping_raises fuel (p :: dataset)) as [e E]. rewrite E.
  exists e. reflexivity.
Qed.

Lemma clustering_empty (fuel : nat) : clustering fuel [] = Ok [].
Proof. destruct fuel; reflexivity. Qed.

End Driver.

Section PeelingWitnesses.

Example peel_square :
  peel square_hull square_corners square_dataset =
  Ok (record [[0; 0]; [2; 0]; [2; 2]; [0; 2]] [[1; 1]; [10; 10]] 6 8,
      [pt [1; 1] 2; pt [10; 10] 2]).
Proof. reflexivity. Qed.

(** X21 on the square: the point (10, 10) of label 2 lies far from the hull
    of label 1 and is listed in [points]. *)
Lemma peel_lists_every_remaining_point_witness :
  peel square_hull square_corners square_dataset =
    Ok (record [[0; 0]; [2; 0]; [2; 2]; [0; 2]] [[1; 1]; [10; 10]] 6 8,
        [pt [1; 1] 2; pt [10; 10] 2]) /\
  label (pt [10; 10] 2) <> label (pt [0; 0] 1) /\
  In [10; 10] [[1; 1]; [10; 10]].
Proof.
  split; [reflexivity |]. split; [discriminate |].
  apply (@peel_lists_every_remaining_point exact square_hull square_corners square_dataset
           (record [[0; 0]; [2; 0]; [2; 2]; [0; 2]] [[1; 1]; [10; 10]] 6 8)
           [pt [1; 1] 2; pt [10; 10] 2] (pt [10; 10] 2)).
  - reflexivity.
  - simpl. right. right. right. right. right. left. reflexivity.
  - reflexivity.
Defined.

(** X23 on a state whose queue is empty, and on the state in which the
    loop is entered for the facet ((0, 0), (2, 0)), whose queue holds two
    ridges. *)
Lemma wrap_loop_does_not_test_the_queue_witness :
  wrap_loop 1 square_dataset 1 (mkWrap new_queue [] [] [] [] None) = Blocked /\
  wrap_loop 1 square_dataset 1 (wrap_init [[0; 0]; [2; 0]]) = Raise TypeError.
Proof.
  split.
  - exact (@wrap_loop_does_not_test_the_queue exact 0 square_dataset 1
             (mkWrap new_queue [] [] [] [] None)).
  - exact (@wrap_loop_does_not_test_the_queue exact 0 square_dataset 1
             (wrap_init [[0; 0]; [2; 0]])).
Defined.

(** The same body on a triangle: the point (1, 1) is listed in [points]
    and is also kept in the next working dataset. *)
Example peel_triangle_lists_and_keeps_a_point :
  peel triangle_hull [[0; 0]; [4; 0]; [0; 4]] triangle_dataset =
    Ok (record [[0; 0]; [4; 0]; [0; 4]] [[1; 1]] 4 16, [pt [1; 1] 1]) /\
  In [1; 1] (cl_points (record [[0; 0]; [4; 0]; [0; 4]] [[1; 1]] 4 16)) /\
  In (pt [1; 1] 1) [pt [1; 1] 1].
Proof.
  split; [reflexivity |]. split; left; reflexivity.
Qed.

(** X22 on the square. *)
Lemma peel_keeps_listed_points_witness :
  peel square_hull square_corners square_dataset =
    Ok (record [[0; 0]; [2; 0]; [2; 2]; [0; 2]] [[1; 1]; [10; 10]] 6 8,
        [pt [1; 1] 2; pt [10; 10] 2]) /\
  Permutation (map coordinate square_dataset)
    ([[0; 0]; [2; 0]; [2; 2]; [0; 2]] ++ map coordinate [pt [1; 1] 2; pt [10; 10] 2]) /\
  incl [[1; 1]; [10; 10]] (map coordinate [pt [1; 1] 2; pt [10; 10] 2]).
Proof.
  split; [reflexivity |].
  exact (@peel_keeps_listed_points exact square_hull square_corners square_dataset
           (record [[0; 0]; [2; 0]; [2; 2]; [0; 2]] [[1; 1]; [10; 10]] 6 8)
           [pt [1; 1] 2; pt [10; 10] 2] eq_refl).
Defined.

End PeelingWitnesses.

(** ** The orientation law of the determinant *)

Section Indexing.

Context {A : Type}.

Lemma length_set_nth (l : list A) (i : nat) (a : A) : length (set_nth l i a) = length l.
Proof.
  revert i. induction l as [|b l IH]; intros [|i]; simpl; try reflexivity.
  rewrite IH. reflexivity.
Qed.

Lemma nth_set_nth (l : list A) (i : nat) (a : A) (k : nat) (d : A) :
  nth k (set_nth l i a) d =
  if Nat.eqb k i && Nat.ltb i (length l) then a else nth k l d.
Proof.
  revert i k. induction l as [|b l IH]; intros i k.
  - simpl. rewrite andb_false_r. reflexivity.
  - destruct i as [|i], k as [|k]; simpl; try reflexivity.
    rewrite IH. reflexivity.
Qed.

Lemma length_swap (i j : nat) (l : list A) : length (swap i j l) = length l.
Proof.
  unfold swap. destruct (nth_error l i); [| reflexivity].
  destruct (nth_error l j); [| reflexivity].
  rewrite !length_set_nth. reflexivity.
Qed.

Lemma nth_swap (i j : nat) (l : list A) (k : nat) (d : A) :
  (i < length l)%nat -> (j < length l)%nat ->
  nth k (swap i j l) d = nth (transp i j k) l d.
Proof.
  intros Hi Hj. unfold swap, transp.
  rewrite (nth_error_nth' l d Hi), (nth_error_nth' l d Hj).
  rewrite !nth_set_nth, length_set_nth.
  destruct (Nat.eqb_spec k i), (Nat.eqb_spec k j);
    destruct (Nat.ltb_spec i (length l)), (Nat.ltb_spec j (length l));
    subst; simpl; try lia; reflexivity.
Qed.

Lemma nth_remove_nth (i : nat) (l : list A) (k : nat) (d : A) :
  nth k (remove_nth i l) d = nth (skip i k) l d.
Proof.
  unfold skip. revert i k. induction l as [|b l IH]; intros [|i] [|k]; simpl;
    try reflexivity.
  - destruct (Nat.ltb_spec (S k) (S i)); reflexivity.
  - rewrite IH. change (Nat.ltb (S k) (S i)) with (Nat.ltb k i).
    destruct (Nat.ltb k i); reflexivity.
Qed.

Lemma length_remove_nth (i : nat) (l : list A) :
  (i < length l)%nat -> length (remove_nth i l) = pred (length l).
Proof.
  revert i. induction l as [|b l IH]; intros [|i] Hi; simpl in *; try lia.
  rewrite IH by lia. destruct l; simpl in *; lia.
Qed.

Lemma swap_comm (i j : nat) (l : list A) : swap i j l = swap j i l.
Proof.
  destruct (Nat.lt_ge_cases i (length l)) as [Hi|Hi];
    destruct (Nat.lt_ge_cases j (length l)) as [Hj|Hj].
  - destruct l as [|d l]; [simpl in Hi; lia |].
    apply (nth_ext _ _ d d); [rewrite !length_swap; reflexivity |].
    intros k _. rewrite !nth_swap by assumption. unfold transp.
    destruct (Nat.eqb_spec k i), (Nat.eqb_spec k j); subst; reflexivity.
  - unfold swap. apply nth_error_None in Hj. rewrite Hj.
    destruct (nth_error l i); reflexivity.
  - unfold swap. apply nth_error_None in Hi. rewrite Hi.
    destruct (nth_error l j); reflexivity.
  - unfold swap. apply nth_error_None in Hi. apply nth_error_None in Hj.
    rewrite Hi, Hj. reflexivity.
Qed.

Lemma swap_cons (i j : nat) (a : A) (l : list A) :
  swap (S i) (S j) (a :: l) = a :: swap i j l.
Proof.
  unfold swap. simpl. destruct (nth_error l i); [| reflexivity].
  destruct (nth_error l j); reflexivity.
Qed.

(** Exchanging [i] and [j] is three exchanges, two of them of neighbours. *)
Lemma swap_through_neighbour (i j : nat) (l : list A) :
  (S i < j)%nat -> (j < length l)%nat ->
  swap i j l = swap i (S i) (swap (S i) j (swap i (S i) l)).
Proof.
  intros Hij Hj. destruct l as [|d l]; [simpl in Hj; lia |].
  apply (nth_ext _ _ d d); [rewrite !length_swap; reflexivity |].
  intros k _.
  rewrite !nth_swap; rewrite ?length_swap; try lia.
  f_equal. unfold transp. repeat eqb_case; reflexivity.
Qed.

End Indexing.

Lemma map_set_nth {A B : Type} (f : A -> B) (l : list A) (i : nat) (x : A) :
  map f (set_nth l i x) = set_nth (map f l) i (f x).
Proof.
  revert i. induction l as [|c l IH]; intros i; [destruct i; reflexivity |].
  destruct i as [|i]; simpl; [reflexivity |]. rewrite IH. reflexivity.
Qed.

Lemma map_swap {A B : Type} (f : A -> B) (i j : nat) (l : list A) :
  map f (swap i j l) = swap i j (map f l).
Proof.
  unfold swap. rewrite !nth_error_map.
  destruct (nth_error l i) as [a|]; [| reflexivity].
  destruct (nth_error l j) as [b|]; [| reflexivity].
  simpl. rewrite !map_set_nth. reflexivity.
Qed.

Section DeterminantTheory.

Variable R : Type.
Variables (rO rI : R) (radd rmul rsub : R -> R -> R) (ropp : R -> R).
Hypothesis Rth : ring_theory rO rI radd rmul rsub ropp eq.

Add Ring Rring : Rth.

Local Notation "x [+] y" := (radd x y) (at level 50, left associativity).
Local Notation "x [*] y" := (rmul x y) (at level 40, left associativity).
Local Notation "[--] x" := (ropp x) (at level 35, right associativity).
Local Abbreviation det := (determinant R rO rI radd rmul ropp).
Local Abbreviation sum := (sum_upto R rO radd).
Local Abbreviation signed := (alt R ropp).
Local Abbreviation row i m := (nth i m (@nil R)).

(** *** Finite sums *)

Lemma sum_ext (f g : nat -> R) (n : nat) :
  (forall i, (i < n)%nat -> f i = g i) -> sum f n = sum g n.
Proof.
  intros E. induction n as [|n IH]; simpl; [reflexivity |].
  rewrite IH, E by (intros; try apply E; lia). reflexivity.
Qed.

Lemma sum_zero (f : nat -> R) (n : nat) :
  (forall i, (i < n)%nat -> f i = rO) -> sum f n = rO.
Proof.
  intros E. induction n as [|n IH]; simpl; [reflexivity |].
  rewrite IH, E by (intros; try apply E; lia). ring.
Qed.

Lemma sum_opp (f : nat -> R) (n : nat) :
  sum (fun i => [--] f i) n = [--] sum f n.
Proof. induction n as [|n IH]; simpl; [| rewrite IH]; ring. Qed.

Lemma sum_add (f g : nat -> R) (n : nat) :
  sum (fun i => f i [+] g i) n = sum f n [+] sum g n.
Proof. induction n as [|n IH]; simpl; [| rewrite IH]; ring. Qed.

(** A sum whose terms vanish except at two neighbouring positions. *)
Lemma sum_two (f : nat -> R) (n k : nat) :
  (S k < n)%nat ->
  (forall i, (i < n)%nat -> i <> k -> i <> S k -> f i = rO) ->
  sum f n = f k [+] f (S k).
Proof.
  intros Hk E. induction n as [|n IH]; [lia |].
  simpl. destruct (Nat.eq_dec n (S k)) as [->|Hn].
  - simpl. rewrite (sum_zero f k) by (intros; apply E; lia). ring.
  - rewrite IH by (try lia; intros; apply E; lia).
    rewrite (E n) by lia. ring.
Qed.

(** A sum does not change when two neighbouring terms are exchanged. *)
Lemma sum_swap (f g : nat -> R) (n k : nat) :
  (S k < n)%nat -> g k = f (S k) -> g (S k) = f k ->
  (forall i, (i < n)%nat -> i <> k -> i <> S k -> g i = f i) ->
  sum g n = sum f n.
Proof.
  intros Hk E1 E2 E. induction n as [|n IH]; [lia |].
  simpl. destruct (Nat.eq_dec n (S k)) as [->|Hn].
  - simpl. rewrite E1, E2, (sum_ext g f k) by (intros; apply E; lia). ring.
  - rewrite IH by (try lia; intros; apply E; lia).
    rewrite (E n) by lia. reflexivity.
Qed.

(** *** Signs *)

Lemma signed_succ (i : nat) (x : R) : signed (S i) x = [--] signed i x.
Proof.
  unfold alt. rewrite Nat.even_succ, <- Nat.negb_even.
  destruct (Nat.even i); simpl; ring.
Qed.

Lemma signed_opp (i : nat) (x : R) : signed i ([--] x) = [--] signed i x.
Proof. unfold alt. destruct (Nat.even i); reflexivity. Qed.

Lemma signed_add (i : nat) (x y : R) : signed i (x [+] y) = signed i x [+] signed i y.
Proof. unfold alt. destruct (Nat.even i); ring. Qed.

Lemma signed_zero (i : nat) : signed i rO = rO.
Proof. unfold alt. destruct (Nat.even i); ring. Qed.

(** *** Rows of a minor *)

Lemma row_minor (i k : nat) (m : list (list R)) :
  row k (minor i m) = tl (row (skip i k) m).
Proof.
  unfold minor. change (@nil R) with (tl (@nil R)) at 1.
  rewrite map_nth, nth_remove_nth. reflexivity.
Qed.

Lemma hd_vadd (u v : list R) : hd rO (vadd radd u v) = hd rO u [+] hd rO v.
Proof. destruct u, v; simpl; ring. Qed.

Lemma vadd_nil_r (u : list R) : vadd radd u [] = u.
Proof. destruct u; reflexivity. Qed.

Lemma tl_vadd (u v : list R) : tl (vadd radd u v) = vadd radd (tl u) (tl v).
Proof. destruct u, v; simpl; try reflexivity. rewrite vadd_nil_r. reflexivity. Qed.

Lemma hd_vneg (u : list R) : hd rO (vneg ropp u) = [--] hd rO u.
Proof. destruct u; simpl; ring. Qed.

Lemma tl_vneg (u : list R) : tl (vneg ropp u) = vneg ropp (tl u).
Proof. destruct u; reflexivity. Qed.

(** *** The determinant as a function of the rows *)

Lemma det_ext (n : nat) (m m' : list (list R)) :
  (forall i, row i m = row i m') -> det n m = det n m'.
Proof.
  revert m m'. induction n as [|n IH]; intros m m' E; [reflexivity |].
  cbn [determinant]. apply sum_ext. intros i _. unfold cofactor_term.
  rewrite (E i), (IH (minor i m) (minor i m')); [reflexivity |].
  intros k. rewrite !row_minor, E. reflexivity.
Qed.

(** Negating one row negates the determinant. *)
Lemma det_row_neg (n k : nat) (m m' : list (list R)) :
  (k < n)%nat ->
  (forall i, i <> k -> row i m' = row i m) ->
  row k m' = vneg ropp (row k m) ->
  det n m' = [--] det n m.
Proof.
  revert k m m'. induction n as [|n IH]; intros k m m' Hk E Ek; [lia |].
  cbn [determinant]. rewrite <- sum_opp. apply sum_ext. intros i Hi.
  unfold cofactor_term. rewrite <- signed_opp. f_equal.
  destruct (Nat.eq_dec i k) as [->|Hik].
  - rewrite Ek, hd_vneg, (det_ext n (minor k m') (minor k m)); [ring |].
    intros j. rewrite !row_minor. f_equal. apply E. unfold skip.
    destruct (Nat.ltb_spec j k); lia.
  - rewrite (E i Hik).
    rewrite (IH (if Nat.ltb k i then k else pred k) (minor i m) (minor i m')); [ring | | |].
    + destruct (Nat.ltb_spec k i); lia.
    + intros j Hj. rewrite !row_minor. f_equal. apply E. unfold skip.
      destruct (Nat.ltb_spec k i), (Nat.ltb_spec j i); lia.
    + rewrite !row_minor.
      replace (skip i (if Nat.ltb k i then k else pred k)) with k
        by (unfold skip; destruct (Nat.ltb_spec k i);
            [destruct (Nat.ltb_spec k i) | destruct (Nat.ltb_spec (pred k) i)]; lia).
      rewrite Ek, tl_vneg. reflexivity.
Qed.

(** The determinant is additive in each row. *)
Lemma det_row_add (n k : nat) (m1 m2 m : list (list R)) :
  (k < n)%nat ->
  (forall i, i <> k -> row i m1 = row i m /\ row i m2 = row i m) ->
  row k m = vadd radd (row k m1) (row k m2) ->
  det n m = det n m1 [+] det n m2.
Proof.
  revert k m1 m2 m. induction n as [|n IH]; intros k m1 m2 m Hk E Ek; [lia |].
  cbn [determinant]. rewrite <- sum_add. apply sum_ext. intros i Hi.
  unfold cofactor_term. rewrite <- signed_add. f_equal.
  destruct (Nat.eq_dec i k) as [->|Hik].
  - rewrite Ek, hd_vadd.
    rewrite (det_ext n (minor k m1) (minor k m)), (det_ext n (minor k m2) (minor k m));
      [ring | |].
    + intros j. rewrite !row_minor. f_equal. apply E. unfold skip.
      destruct (Nat.ltb_spec j k); lia.
    + intros j. rewrite !row_minor. f_equal. apply E. unfold skip.
      destruct (Nat.ltb_spec j k); lia.
  - destruct (E i Hik) as [-> ->].
    rewrite (IH (if Nat.ltb k i then k else pred k) (minor i m1) (minor i m2) (minor i m));
      [ring | | |].
    + destruct (Nat.ltb_spec k i); lia.
    + intros j Hj. rewrite !row_minor.
      assert (Hs : skip i j <> k)
        by (unfold skip; destruct (Nat.ltb_spec k i), (Nat.ltb_spec j i); lia).
      destruct (E _ Hs) as [-> ->]. split; reflexivity.
    + rewrite !row_minor.
      replace (skip i (if Nat.ltb k i then k else pred k)) with k
        by (unfold skip; destruct (Nat.ltb_spec k i);
            [destruct (Nat.ltb_spec k i) | destruct (Nat.ltb_spec (pred k) i)]; lia).
      rewrite Ek, tl_vadd. reflexivity.
Qed.


Lemma skip_below (i k : nat) : i <> k -> skip i (below i k) = k.
Proof.
  intros Hik. unfold skip, below. destruct (Nat.ltb_spec k i).
  - destruct (Nat.ltb_spec k i); lia.
  - destruct (Nat.ltb_spec (pred k) i); lia.
Qed.

Lemma skip_below_succ (i k : nat) :
  i <> k -> i <> S k -> skip i (S (below i k)) = S k.
Proof.
  intros Hik Hik'. unfold skip, below. destruct (Nat.ltb_spec k i).
  - destruct (Nat.ltb_spec (S k) i); lia.
  - destruct (Nat.ltb_spec (S (pred k)) i); lia.
Qed.

Lemma skip_other (i k j : nat) :
  i <> k -> i <> S k -> j <> below i k -> j <> S (below i k) ->
  skip i j <> k /\ skip i j <> S k.
Proof.
  unfold skip, below. intros Hik Hik' Hj Hj'.
  destruct (Nat.ltb_spec k i), (Nat.ltb_spec j i); lia.
Qed.

(** Two equal neighbouring rows make the determinant vanish. *)
Lemma det_adjacent_equal (n k : nat) (m : list (list R)) :
  (S k < n)%nat -> row k m = row (S k) m -> det n m = rO.
Proof.
  revert k m. induction n as [|n IH]; intros k m Hk E; [lia |].
  cbn [determinant]. rewrite (sum_two _ (S n) k Hk).
  - unfold cofactor_term. rewrite signed_succ, E.
    rewrite (det_ext n (minor (S k) m) (minor k m)); [ring |].
    intros j. rewrite !row_minor. unfold skip.
    destruct (Nat.ltb_spec j (S k)), (Nat.ltb_spec j k); try reflexivity; try lia.
    replace j with k by lia. rewrite E. reflexivity.
  - intros i Hi Hik Hik'. unfold cofactor_term.
    rewrite (IH (below i k) (minor i m)).
    + transitivity (signed i rO); [f_equal; ring | apply signed_zero].
    + unfold below. destruct (Nat.ltb_spec k i); lia.
    + rewrite !row_minor, skip_below, skip_below_succ by assumption. rewrite E. reflexivity.
Qed.

(** Exchanging two neighbouring rows negates the determinant. *)
Lemma det_swap_adjacent (n k : nat) (m m' : list (list R)) :
  (S k < n)%nat ->
  row k m' = row (S k) m -> row (S k) m' = row k m ->
  (forall i, i <> k -> i <> S k -> row i m' = row i m) ->
  det n m' = [--] det n m.
Proof.
  revert k m m'. induction n as [|n IH]; intros k m m' Hk E1 E2 E; [lia |].
  cbn [determinant]. rewrite <- sum_opp.
  apply (sum_swap _ _ (S n) k Hk).
  - unfold cofactor_term. rewrite E1, signed_succ.
    rewrite (det_ext n (minor k m') (minor (S k) m)); [ring |].
    intros j. rewrite !row_minor. unfold skip.
    destruct (Nat.ltb_spec j (S k)), (Nat.ltb_spec j k); try lia.
    + apply f_equal. apply E; lia.
    + replace j with k by lia. rewrite E2. reflexivity.
    + apply f_equal. apply E; lia.
  - unfold cofactor_term. rewrite E2, signed_succ.
    rewrite (det_ext n (minor (S k) m') (minor k m)); [ring |].
    intros j. rewrite !row_minor. unfold skip.
    destruct (Nat.ltb_spec j (S k)), (Nat.ltb_spec j k); try lia.
    + apply f_equal. apply E; lia.
    + replace j with k by lia. rewrite E1. reflexivity.
    + apply f_equal. apply E; lia.
  - intros i Hi Hik Hik'. unfold cofactor_term. rewrite <- signed_opp. f_equal.
    rewrite (E i Hik Hik').
    rewrite (IH (below i k) (minor i m) (minor i m')); [ring | | | |].
    + unfold below. destruct (Nat.ltb_spec k i); lia.
    + rewrite !row_minor, skip_below, skip_below_succ by assumption.
      rewrite E1. reflexivity.
    + rewrite !row_minor, skip_below, skip_below_succ by assumption.
      rewrite E2. reflexivity.
    + intros j Hj Hj'. rewrite !row_minor.
      destruct (skip_other i k j Hik Hik' Hj Hj') as [H1 H2].
      rewrite (E _ H1 H2). reflexivity.
Qed.

(** Exchanging any two rows negates the determinant. *)
Lemma det_swap (n : nat) (m : list (list R)) (i j : nat) :
  (i < j)%nat -> (j < n)%nat -> (j < length m)%nat ->
  det n (swap i j m) = [--] det n m.
Proof.
  intros Hij. remember (j - i)%nat as gap eqn:Hgap.
  revert i j m Hij Hgap. induction gap as [gap IH] using lt_wf_ind.
  intros i j m Hij Hgap Hn Hl.
  destruct (Nat.eq_dec j (S i)) as [->|Hne].
  - apply (det_swap_adjacent n i); [lia | | |].
    + rewrite nth_swap by lia. unfold transp. rewrite Nat.eqb_refl. reflexivity.
    + rewrite nth_swap by lia. unfold transp. repeat eqb_case. reflexivity.
    + intros k Hk Hk'. rewrite nth_swap by lia. unfold transp. repeat eqb_case. reflexivity.
  - rewrite (swap_through_neighbour i j m) by lia.
    rewrite (IH 1%nat) by (rewrite ?length_swap; lia).
    rewrite (IH (j - S i)%nat) by (rewrite ?length_swap; lia).
    rewrite (IH 1%nat) by (rewrite ?length_swap; lia).
    ring.
Qed.

(** Two equal rows make the determinant vanish. *)
Lemma det_equal_rows (n : nat) (m : list (list R)) (i j : nat) :
  (i < j)%nat -> (j < n)%nat -> (j < length m)%nat ->
  row i m = row j m -> det n m = rO.
Proof.
  intros Hij Hn Hl E. destruct (Nat.eq_dec j (S i)) as [->|Hne].
  - exact (det_adjacent_equal n i m Hn E).
  - assert (Z0 : det n (swap (S i) j m) = rO).
    { apply (det_adjacent_equal n i); [lia |].
      rewrite !nth_swap by lia. unfold transp. repeat eqb_case. exact E. }
    rewrite det_swap in Z0 by lia.
    transitivity ([--] [--] det n m); [ring | rewrite Z0; ring].
Qed.

End DeterminantTheory.

Section Orientation.

Context `{Numeric}.
Variables (one : scalar) (opp : scalar -> scalar) (sgn : scalar -> Z) (mag : scalar -> logv).
Hypothesis kernel_is_exact : exact_kernel one opp sgn mag.

Add Ring scalar_ring : (ek_ring one opp sgn mag kernel_is_exact).

Local Abbreviation Rth := (ek_ring one opp sgn mag kernel_is_exact).
Local Abbreviation D := (determinant scalar scalar_zero one scalar_add scalar_mul opp).
Local Abbreviation ori := (oriented one opp).
Local Abbreviation add_row := (vadd scalar_add).
Local Abbreviation neg_row := (vneg opp).

Lemma array_sub_vsub (x r : Vertex) :
  length x = length r -> array_sub x r = Ok (vsub x r).
Proof. intros E. unfold array_sub. rewrite E, Nat.eqb_refl. reflexivity. Qed.

Lemma difference_rows_vsub (d : nat) (r : Vertex) (xs : Vertices) :
  length r = d -> dim d xs -> difference_rows r xs = Ok (map (fun x => vsub x r) xs).
Proof.
  intros Hr Hxs. induction Hxs as [|x xs Hx Hxs IH]; simpl; [reflexivity |].
  rewrite array_sub_vsub by congruence. rewrite IH. reflexivity.
Qed.

Lemma length_vsub (x r : Vertex) : length x = length r -> length (vsub x r) = length r.
Proof. intros E. unfold vsub. rewrite length_map, length_combine. lia. Qed.

Lemma signed_volume_exact (d : nat) (vs : Vertices) :
  (1 <= d)%nat -> length vs = S d -> dim d vs ->
  signed_volume vs = Ok (sgn (ori vs), mag (ori vs)).
Proof.
  intros Hd L Dv. destruct vs as [|v0 [|v1 vs]]; simpl in L; try lia.
  assert (L0 : length v0 = d) by (inversion Dv; assumption).
  assert (Dr : dim d (v1 :: vs)) by (inversion Dv; assumption).
  unfold signed_volume. cbn [bind index_nat nth_error tl].
  rewrite (difference_rows_vsub d v0 (v1 :: vs) L0 Dr). cbn [bind].
  rewrite (numpy_matrix_dim d).
  - cbn [bind]. unfold slogdet. cbn [nrows ncols entries].
    rewrite length_map. replace (Nat.eqb (length (v1 :: vs)) d) with true
      by (symmetry; apply Nat.eqb_eq; simpl; lia).
    rewrite (ek_slogdet one opp sgn mag kernel_is_exact). unfold oriented, difference_matrix_rows.
    cbn [hd tl length pred]. rewrite length_map. reflexivity.
  - discriminate.
  - apply Forall_map. eapply Forall_impl; [| exact Dr].
    intros x Hx. simpl in Hx. rewrite length_vsub; congruence.
Qed.

Lemma vsub_anti (a b : Vertex) : length a = length b -> vsub a b = neg_row (vsub b a).
Proof.
  revert b. induction a as [|x a IH]; intros [|y b] E; simpl in E; try lia; [reflexivity |].
  unfold vsub, vneg in *. cbn [combine map fst snd]. rewrite IH by lia. f_equal. ring.
Qed.

Lemma vsub_shift (x v0 v1 : Vertex) :
  length x = length v0 -> length v1 = length v0 ->
  vsub x v1 = add_row (vsub x v0) (neg_row (vsub v1 v0)).
Proof.
  revert v0 v1. induction x as [|a x IH]; intros [|b v0] [|c v1] E0 E1; simpl in E0, E1;
    try lia; [reflexivity |].
  unfold vsub, vneg in *. cbn [combine map fst snd vadd]. rewrite (IH v0 v1) by lia.
  f_equal. ring.
Qed.

Lemma nth_app_other {A : Type} (pre post : list A) (x y d : A) (i : nat) :
  i <> length pre -> nth i (pre ++ x :: post) d = nth i (pre ++ y :: post) d.
Proof.
  intros Hi. destruct (Nat.lt_ge_cases i (length pre)).
  - rewrite !app_nth1 by assumption. reflexivity.
  - rewrite !app_nth2 by assumption.
    destruct (i - length pre)%nat eqn:E; [lia | reflexivity].
Qed.

(** Adding the first row to each of the rows below it keeps the determinant. *)
Lemma det_add_first_row (n : nat) (first : list scalar) (rs done : list (list scalar)) :
  S (length done + length rs) = n ->
  D n (first :: done ++ map (fun r => add_row r first) rs) = D n (first :: done ++ rs).
Proof.
  revert done. induction rs as [|r rs IH]; intros done L; [reflexivity |].
  cbn [map]. simpl in L.
  change (done ++ add_row r first :: map (fun r0 => add_row r0 first) rs)
    with (done ++ [add_row r first] ++ map (fun r0 => add_row r0 first) rs).
  rewrite app_assoc, IH by (rewrite length_app; simpl; lia).
  rewrite <- app_assoc. cbn [app].
  rewrite (det_row_add scalar scalar_zero one scalar_add scalar_mul scalar_sub opp Rth
             n (S (length done))
             (first :: done ++ r :: rs) (first :: done ++ first :: rs)).
  - rewrite (det_equal_rows scalar scalar_zero one scalar_add scalar_mul scalar_sub opp Rth
               n (first :: done ++ first :: rs) 0 (S (length done))).
    + ring.
    + lia.
    + lia.
    + simpl. rewrite length_app. simpl. lia.
    + cbn [nth]. rewrite nth_middle. reflexivity.
  - lia.
  - intros i Hi. destruct i as [|i]; [split; reflexivity |].
    cbn [nth]. split; apply nth_app_other; lia.
  - cbn [nth]. rewrite !nth_middle. reflexivity.
Qed.

Lemma Forall_set_nth {A : Type} (P : A -> Prop) (l : list A) (i : nat) (a : A) :
  Forall P l -> P a -> Forall P (set_nth l i a).
Proof.
  intros F Pa. revert i. induction F as [|b l Pb F IH]; intros [|i]; simpl;
    constructor; auto.
Qed.

Lemma Forall_swap {A : Type} (P : A -> Prop) (i j : nat) (l : list A) :
  Forall P l -> Forall P (swap i j l).
Proof.
  intros F. unfold swap.
  destruct (nth_error l i) as [a|] eqn:Ea; [| exact F].
  destruct (nth_error l j) as [b|] eqn:Eb; [| exact F].
  rewrite Forall_forall in F.
  apply Forall_set_nth; [apply Forall_set_nth |].
  - apply Forall_forall. exact F.
  - apply F. eapply nth_error_In. exact Eb.
  - apply F. eapply nth_error_In. exact Ea.
Qed.

(** Exchanging two vertices other than the reference exchanges two rows. *)
Lemma oriented_swap_rows (d : nat) (vs : Vertices) (i j : nat) :
  length vs = S d -> (1 <= i)%nat -> (i < j)%nat -> (j <= d)%nat ->
  ori (swap i j vs) = opp (ori vs).
Proof.
  intros L Hi Hij Hj. destruct vs as [|v0 vs]; [discriminate |].
  destruct i as [|i]; [lia |]. destruct j as [|j]; [lia |].
  rewrite swap_cons. unfold oriented, difference_matrix_rows. cbn [hd tl length pred].
  rewrite length_swap, map_swap. simpl in L.
  apply (det_swap scalar scalar_zero one scalar_add scalar_mul scalar_sub opp Rth);
    rewrite ?length_map; lia.
Qed.

(** Exchanging the reference with the next vertex negates the first row and
    adds it to the others. *)
Lemma oriented_swap_reference (d : nat) (vs : Vertices) :
  (1 <= d)%nat -> length vs = S d -> dim d vs ->
  ori (swap 0 1 vs) = opp (ori vs).
Proof.
  intros Hd L Dv. destruct vs as [|v0 [|v1 vs]]; simpl in L; try lia.
  assert (L0 : length v0 = d) by (inversion Dv; assumption).
  assert (L1 : length v1 = d) by (inversion Dv as [|? ? ? Dv']; inversion Dv'; assumption).
  assert (Dr : dim d vs) by (inversion Dv as [|? ? ? Dv']; inversion Dv'; assumption).
  change (swap 0 1 (v0 :: v1 :: vs)) with (v1 :: v0 :: vs).
  unfold oriented, difference_matrix_rows. cbn [hd tl length pred map].
  rewrite (vsub_anti v0 v1) by congruence.
  replace (map (fun x => vsub x v1) vs)
    with (map (fun r => add_row r (neg_row (vsub v1 v0))) (map (fun x => vsub x v0) vs)).
  2:{ rewrite map_map. apply map_ext_in. intros x Hx. symmetry.
      apply vsub_shift; [| congruence].
      unfold dim in Dr. rewrite Forall_forall in Dr. rewrite (Dr x Hx). congruence. }
  pose proof (det_add_first_row (S (length vs)) (neg_row (vsub v1 v0))
                (map (fun x => vsub x v0) vs) []) as Hrows.
  cbn [app] in Hrows. rewrite Hrows by (rewrite length_map; reflexivity).
  apply (det_row_neg scalar scalar_zero one scalar_add scalar_mul scalar_sub opp Rth
           (S (length vs)) 0).
  - lia.
  - intros i Hi. destruct i; [contradiction | reflexivity].
  - reflexivity.
Qed.

Lemma oriented_swap (d : nat) (vs : Vertices) (i j : nat) :
  length vs = S d -> dim d vs -> (i < j)%nat -> (j <= d)%nat ->
  ori (swap i j vs) = opp (ori vs).
Proof.
  intros L Dv Hij Hj. destruct i as [|i].
  - destruct (Nat.eq_dec j 1) as [->|Hj1].
    + apply (oriented_swap_reference d); [lia | assumption | assumption].
    + rewrite (swap_through_neighbour 0 j vs) by lia.
      rewrite (oriented_swap_reference d);
        [| lia | rewrite !length_swap; exact L | apply Forall_swap, Forall_swap; exact Dv].
      rewrite (oriented_swap_rows d);
        [| rewrite length_swap; exact L | lia | lia | lia].
      rewrite (oriented_swap_reference d); [ring | lia | exact L | exact Dv].
  - apply (oriented_swap_rows d); [assumption | lia | lia | lia].
Qed.

(** The orientation law for a kernel that is exact. *)
Lemma signed_volume_swap (d : nat) (vs : Vertices) (i j : nat) :
  length vs = S d -> dim d vs -> i <> j -> (i <= d)%nat -> (j <= d)%nat ->
  signed_volume vs = Ok (sgn (ori vs), mag (ori vs)) /\
  signed_volume (swap i j vs) = Ok (- sgn (ori vs), mag (ori vs)).
Proof.
  intros L Dv Hij Hi Hj.
  assert (Hd : (1 <= d)%nat) by lia.
  split; [apply (signed_volume_exact d); assumption |].
  rewrite (signed_volume_exact d);
    [| exact Hd | rewrite length_swap; exact L | apply Forall_swap; exact Dv].
  assert (E : ori (swap i j vs) = opp (ori vs)).
  { destruct (Nat.lt_ge_cases i j).
    - apply (oriented_swap d); assumption.
    - rewrite swap_comm. apply (oriented_swap d); try assumption. lia. }
  rewrite E, (ek_sgn_opp one opp sgn mag kernel_is_exact), (ek_mag_opp one opp sgn mag kernel_is_exact).
  reflexivity.
Qed.

(** The orientation law, for a kernel whose arithmetic is exact: for
    [d + 1] vertices of dimension [d] and two distinct positions,
    [signed_volume] of the list with the two vertices exchanged returns the
    negated sign and the same log-magnitude.  Binary64 arithmetic is not
    such a kernel: the law is one of the determinant, not of its rounded
    computation. *)
Theorem signed_volume_orientation (d : nat) (vs : Vertices) (i j : nat) :
  length vs = S d -> dim d vs -> i <> j -> (i <= d)%nat -> (j <= d)%nat ->
  exists sign logvolume,
    signed_volume vs = Ok (sign, logvolume) /\
    signed_volume (swap i j vs) = Ok (- sign, logvolume).
Proof.
  intros L Dv Hij Hi Hj.
  exists (sgn (ori vs)), (mag (ori vs)).
  apply (signed_volume_swap d); assumption.
Qed.

End Orientation.

Section OrientationWitness.

(** The integer kernel is exact. *)
Lemma exact_kernel_Z : exact_kernel 1 Z.opp Z.sgn Z.abs.
Proof.
  constructor.
  - exact Zth.
  - intros rows. reflexivity.
  - exact Z.sgn_opp.
  - exact Z.abs_opp.
Qed.

(** The law on a triangle with integer coordinates, its first and last
    vertices exchanged. *)
Lemma signed_volume_orientation_witness :
  exact_kernel 1 Z.opp Z.sgn Z.abs /\
  exists sign logvolume,
    signed_volume [[0; 0]; [3; 0]; [1; 2]] = Ok (sign, logvolume) /\
    signed_volume (swap 0 2 [[0; 0]; [3; 0]; [1; 2]]) = Ok (- sign, logvolume).
Proof.
  split; [exact exact_kernel_Z |].
  apply (@signed_volume_orientation exact 1 Z.opp Z.sgn Z.abs exact_kernel_Z 2
           [[0; 0]; [3; 0]; [1; 2]] 0 2).
  - reflexivity.
  - repeat constructor.
  - discriminate.
  - lia.
  - lia.
Defined.

(** The runs behind the witness: the triangle has signed volume 6, and -6
    once its first and last vertices are exchanged. *)
Example signed_volume_triangle :
  signed_volume [[0; 0]; [3; 0]; [1; 2]] = Ok (1, 6) /\
  swap 0 2 [[0; 0]; [3; 0]; [1; 2]] = [[1; 2]; [3; 0]; [0; 0]] /\
  signed_volume [[1; 2]; [3; 0]; [0; 0]] = Ok (-1, 6).
Proof. repeat split. Qed.

End OrientationWitness.

Section OrientationOverReals.

Import ExactR.

(** The real kernel is exact. *)
Lemma exact_kernel_R : @exact_kernel real 1%R Ropp sign_of log_abs.
Proof.
  constructor.
  - exact RTheory.
  - intros rows. reflexivity.
  - intros x. unfold sign_of.
    destruct (Rlt_dec 0 (- x)), (Rlt_dec (- x) 0), (Rlt_dec 0 x), (Rlt_dec x 0);
      try reflexivity; lra.
  - intros x. unfold log_abs. rewrite Rabs_Ropp.
    destruct (Req_dec_T (- x) 0), (Req_dec_T x 0); try reflexivity; lra.
Qed.

(** The law over the reals: for [d + 1] vertices of R^d and two distinct
    positions, exchanging the two vertices negates the sign of the signed
    volume and keeps its log-magnitude. *)
Corollary signed_volume_orientation_over_reals (d : nat) (vs : list (list R))
    (i j : nat) :
  length vs = S d -> @dim real d vs -> i <> j -> (i <= d)%nat -> (j <= d)%nat ->
  exists (sign : Z) (logvolume : option R),
    @signed_volume real vs = Ok (sign, logvolume) /\
    @signed_volume real (swap i j vs) = Ok (- sign, logvolume).
Proof.
  intros L Dv Hij Hi Hj. eexists. eexists.
  exact (@signed_volume_swap real 1%R Ropp sign_of log_abs exact_kernel_R d vs i j
           L Dv Hij Hi Hj).
Qed.

End OrientationOverReals.

(** * Further properties of the module *)

Section QueueAndPurity.

Context `{Numeric}.

Lemma fold_put_items (f : nat -> Vertices) (l : list nat) (q : Queue) :
  items (fold_left (fun q i => put q (f i)) l q) = items q ++ map f l.
Proof.
  revert q. induction l as [|i l IH]; intros q; cbn [fold_left map].
  - rewrite app_nil_r. reflexivity.
  - rewrite IH. cbn [put items]. rewrite <- app_assoc. reflexivity.
Qed.

Lemma remove_nth_incl {A : Type} (i : nat) (l : list A) : incl (remove_nth i l) l.
Proof.
  revert i. induction l as [|a l IH]; intros [|i]; cbn [remove_nth].
  - apply incl_refl.
  - apply incl_refl.
  - apply incl_tl, incl_refl.
  - intros x [-> | Hx]; [left; reflexivity | right; exact (IH i x Hx)].
Qed.

(** X1.  [queuing_face] leaves what the queue held in front and appends,
    in order, one ridge per vertex of the face: the face without that
    vertex.  Every appended ridge has one vertex less than the face and
    holds vertices of the face only. *)
Theorem queuing_face_appends_ridges (face : Vertices) (_queue : Queue) :
  items (queuing_face face _queue) =
    items _queue ++ map (fun i => remove_nth i face) (seq 0 (length face)) /\
  length (items (queuing_face face _queue)) =
    (length (items _queue) + length face)%nat /\
  Forall (fun ridge => length ridge = pred (length face) /\ incl ridge face)
    (map (fun i => remove_nth i face) (seq 0 (length face))).
Proof.
  unfold queuing_face. rewrite fold_put_items. repeat split.
  - rewrite length_app, length_map, length_seq. reflexivity.
  - apply Forall_forall. intros ridge Hin. apply in_map_iff in Hin.
    destruct Hin as [i [<- Hi]]. apply in_seq in Hi. split.
    + apply length_remove_nth. lia.
    + apply remove_nth_incl.
Qed.

(** The purity check, computed on the labels and the used pivots alone. *)
Lemma check_homogeneity_outcome (dataset : Dataset) (hull : list Vertices) (lbl : Z)
    (used_pivots : list Vertex) (b : bool) :
  check_homogeneity dataset hull lbl used_pivots = Ok b ->
  b = forallb (exempt lbl used_pivots) dataset.
Proof.
  induction dataset as [|point dataset IH]; cbn [check_homogeneity forallb].
  - intros E. injection E as <-. reflexivity.
  - unfold exempt at 1.
    destruct (vertex_in (coordinate point) used_pivots || (label point =? lbl)).
    + exact IH.
    + destruct (check_inside_hull hull (coordinate point)) as [inside| | |] eqn:Ei;
        cbn [bind]; try discriminate.
      rewrite (check_inside_hull_only_true hull (coordinate point) inside Ei).
      intros E. injection E as <-. reflexivity.
Qed.

Lemma check_homogeneity_all_exempt (dataset : Dataset) (hull : list Vertices) (lbl : Z)
    (used_pivots : list Vertex) :
  forallb (exempt lbl used_pivots) dataset = true ->
  check_homogeneity dataset hull lbl used_pivots = Ok true.
Proof.
  induction dataset as [|point dataset IH]; cbn [check_homogeneity forallb].
  - reflexivity.
  - intros E. apply andb_true_iff in E. destruct E as [E1 E2].
    unfold exempt in E1. rewrite E1. exact (IH E2).
Qed.

(** X2.  Whenever [check_homogeneity] returns, its answer does not depend
    on the hull: it is [True] exactly when every point of the dataset is a
    used pivot or carries the hull's label.  One point of another label that
    is not a used pivot makes the answer [False], wherever the point lies. *)
Theorem check_homogeneity_ignores_hull (dataset : Dataset) (hull : list Vertices)
    (lbl : Z) (used_pivots : list Vertex) (b : bool) :
  check_homogeneity dataset hull lbl used_pivots = Ok b ->
  b = forallb (exempt lbl used_pivots) dataset.
Proof. exact (check_homogeneity_outcome dataset hull lbl used_pivots b). Qed.

End QueueAndPurity.

Section QueueAndPurityWitness.

(** X2 on the square and a single point of label 2 far outside it: the
    hull is declared impure. *)
Lemma check_homogeneity_ignores_hull_witness :
  check_homogeneity far_dataset square_hull 1 square_corners = Ok false /\
  false = forallb (exempt 1 square_corners) far_dataset.
Proof.
  split; [reflexivity |].
  exact (@check_homogeneity_ignores_hull exact far_dataset square_hull 1
           square_corners false eq_refl).
Defined.

End QueueAndPurityWitness.

Section SeedLoop.

Context `{Numeric}.

Lemma bind_Ok {A B : Type} (m : outcome A) (k : A -> outcome B) (b : B) :
  bind m k = Ok b -> exists a, m = Ok a /\ k a = Ok b.
Proof.
  destruct m as [a| | |]; cbn [bind]; try discriminate.
  intros E. exists a. split; [reflexivity | exact E].
Qed.

(** A pass through the loop of [qsort_partition] never reaches its end: it
    is left by an exception, at the latest when the list is indexed by the
    pivot tuple. *)
Lemma qsort_loop_returns_at_once (fuel : nat) (data : list Vertex)
    (target lhs rhs position : Z) (r : list Vertex * Z) :
  qsort_loop fuel data target lhs rhs position = Ok r ->
  position = target /\ r = (data, position).
Proof.
  destruct fuel as [|fuel]; cbn [qsort_loop];
    destruct (Z.eqb_spec position target) as [E|E].
  - intros R. injection R as <-. split; [exact E | reflexivity].
  - discriminate.
  - intros R. injection R as <-. split; [exact E | reflexivity].
  - intros R. exfalso.
    apply bind_Ok in R. destruct R as [pivot [_ R]].
    apply bind_Ok in R. destruct R as [[data' index] [_ R]].
    apply bind_Ok in R. destruct R as [a [_ R]].
    apply bind_Ok in R. destruct R as [b [R _]].
    discriminate R.
Qed.

Lemma qsort_partition_returned (fuel : nat) (data : Dataset) (target lhs : Z)
    (rhs : option Z) (lbl : Z) (edge : option (list Vertex)) :
  qsort_partition fuel data target lhs rhs = Ok (lbl, edge) ->
  target = -1 /\ edge = None /\ exists first, hd_error data = Some first /\ lbl = label first.
Proof.
  unfold qsort_partition. intros R.
  apply bind_Ok in R. destruct R as [first [E R]].
  apply bind_Ok in R. destruct R as [[data' position] [L R]].
  apply qsort_loop_returns_at_once in L. destruct L as [<- _].
  injection R as <- <-. repeat split.
  exists first. split; [| reflexivity].
  destruct data; [discriminate E | injection E as <-; reflexivity].
Qed.

(** X3.  Whatever its arguments, [qsort_partition] returns only when
    [target] is -1, so that its loop is not entered; it then returns the
    label of the first element together with [None], the value of
    [list.sort()], and no list of coordinates. *)
Theorem qsort_partition_returns_no_list (fuel : nat) (data : Dataset) (target lhs : Z)
    (rhs : option Z) (lbl : Z) (edge : option (list Vertex)) :
  qsort_partition fuel data target lhs rhs = Ok (lbl, edge) ->
  target = -1 /\ edge = None /\ exists first, hd_error data = Some first /\ lbl = label first.
Proof. exact (qsort_partition_returned fuel data target lhs rhs lbl edge). Qed.

(** Seed selection returns for no dataset and no bound on its loop. *)
Lemma initialize_hull_never_returns (fuel : nat) (dataset : Dataset) (r : Z * Vertices) :
  initialize_hull fuel dataset = Ok r -> False.
Proof.
  unfold initialize_hull. intros R.
  apply bind_Ok in R. destruct R as [first [_ R]].
  apply bind_Ok in R. destruct R as [[lbl edge] [Q R]].
  apply qsort_partition_returned in Q. destruct Q as [_ [-> _]].
  discriminate R.
Qed.

Lemma gift_wrapping_never_returns (fuel : nat) (dataset : Dataset)
    (r : list Vertices * list Vertex) :
  gift_wrapping fuel dataset = Ok r -> False.
Proof.
  unfold gift_wrapping. intros R.
  apply bind_Ok in R. destruct R as [lf [I _]].
  exact (initialize_hull_never_returns fuel dataset lf I).
Qed.

Lemma clustering_emits_nothing (fuel : nat) (dataset : Dataset)
    (clusters : list cluster) :
  clustering fuel dataset = Ok clusters -> dataset = [] /\ clusters = [].
Proof.
  unfold clustering. destruct dataset as [|p dataset].
  - destruct fuel; cbn [clustering_loop]; intros R; injection R as <-;
      split; reflexivity.
  - destruct fuel as [|fuel]; cbn [clustering_loop]; [discriminate |].
    intros R. exfalso. apply bind_Ok in R. destruct R as [c [G _]].
    exact (gift_wrapping_never_returns fuel (p :: dataset) c G).
Qed.

(** X4.  [clustering] emits no cluster record: whatever the bound on its
    loops, when it returns the dataset was empty, and so is the list of
    clusters. *)
Theorem clustering_returns_only_for_no_point (fuel : nat) (dataset : Dataset)
    (clusters : list cluster) :
  clustering fuel dataset = Ok clusters -> dataset = [] /\ clusters = [].
Proof. exact (clustering_emits_nothing fuel dataset clusters). Qed.

(** X5.  The record that an iteration emits has the size of the whole
    working dataset: its vertices are the points that are used vertices,
    and its points are all the others. *)
Theorem peel_size_is_dataset_size (hull : list Vertices) (used : list Vertex)
    (dataset : Dataset) (c : cluster) (rest : Dataset) :
  peel hull used dataset = Ok (c, rest) ->
  cl_size c = length dataset /\
  cl_size c = (length (cl_vertices c) + length (cl_points c))%nat.
Proof.
  intros E. pose proof (peel_lists hull used dataset c rest E) as [R [V P]].
  assert (S : cl_size c = (length (cl_vertices c) + length (cl_points c))%nat).
  { unfold peel in E. apply bind_Ok in E. destruct E as [[[d v] p] [_ E]].
    cbv beta iota in E. apply bind_Ok in E. destruct E as [vol [_ E]].
    injection E as <- _. reflexivity. }
  split; [| exact S].
  rewrite S, V, P, R, !length_map, <- length_app.
  symmetry. apply Permutation_length. apply filter_split_permutation.
Qed.

End SeedLoop.

Section SeedLoopWitness.

(** X3 with [target = -1] on two points. *)
Lemma qsort_partition_returns_no_list_witness :
  qsort_partition 0 [pt [0; 0] 7; pt [1; 0] 7] (-1) 0 None = Ok (7, None) /\
  -1 = -1 /\ @None (list (list Z)) = None /\
  exists first, hd_error [pt [0; 0] 7; pt [1; 0] 7] = Some first /\ 7 = label first.
Proof.
  split; [reflexivity |].
  exact (@qsort_partition_returns_no_list exact 0 [pt [0; 0] 7; pt [1; 0] 7] (-1) 0 None
           7 None eq_refl).
Defined.

(** X4 on the empty dataset, the one input on which [clustering] returns. *)
Lemma clustering_returns_only_for_no_point_witness :
  @clustering exact 3 [] = Ok [] /\ @nil (@Point exact) = [] /\ @nil (@cluster exact) = [].
Proof.
  split; [reflexivity |].
  exact (@clustering_returns_only_for_no_point exact 3 [] [] eq_refl).
Defined.

(** X5 on the square: six points, four vertices and two listed points. *)
Lemma peel_size_is_dataset_size_witness :
  peel square_hull square_corners square_dataset =
    Ok (record [[0; 0]; [2; 0]; [2; 2]; [0; 2]] [[1; 1]; [10; 10]] 6 8,
        [pt [1; 1] 2; pt [10; 10] 2]) /\
  6%nat = length square_dataset /\ 6%nat = (4 + 2)%nat.
Proof.
  split; [reflexivity |].
  exact (@peel_size_is_dataset_size exact square_hull square_corners square_dataset
           (record [[0; 0]; [2; 0]; [2; 2]; [0; 2]] [[1; 1]; [10; 10]] 6 8)
           [pt [1; 1] 2; pt [10; 10] 2] eq_refl).
Defined.

End SeedLoopWitness.

Section WholeRuns.

Context `{Numeric}.





End WholeRuns.

Section WholeRunsWitness.




End WholeRunsWitness.

Section SelectorRuns.

Context `{Numeric}.

Lemma scan_within (dataset : Dataset) (edge : Vertices) (lbl : Z) (homo opp : candidate)
    (found : bool) (rest : list Point) (y : yielded) (g : generator) :
  In (cand_pivot homo) (coordinates dataset) -> incl rest dataset ->
  scan edge lbl homo opp found rest = Ok (y, g) ->
  yield_within dataset lbl y /\ gen_within dataset lbl g.
Proof.
  intros Hh. induction rest as [|point rest IH]; intros Hr; cbn [scan].
  - intros E. injection E as <- <-. split; [exact Hh | exact I].
  - intros E. apply bind_Ok in E. destruct E as [[[updated face] area] [_ E]].
    cbv beta iota zeta in E.
    assert (Hp : In (coordinate point) (coordinates dataset)).
    { apply in_map. apply Hr. left. reflexivity. }
    assert (Hr' : incl rest dataset) by (intros q Hq; apply Hr; right; exact Hq).
    destruct (if label point =? lbl then negb updated else updated).
    + injection E as <- <-. cbn [yield_within gen_within cand_pivot].
      repeat split; assumption.
    + exact (IH Hr' E).
Qed.

Lemma send_within (dataset : Dataset) (lbl : Z) (g g' : generator)
    (check : option string) (y : yielded) :
  gen_within dataset lbl g -> send g check = Ok (y, g') ->
  yield_within dataset lbl y /\ gen_within dataset lbl g'.
Proof.
  destruct g as [ds edge l | ds edge l homo opp | edge l homo opp found current rest | |];
    cbn [gen_within send].
  - intros [-> ->] E. destruct check; [discriminate |].
    unfold pivot_on_edge_start in E.
    apply bind_Ok in E. destruct E as [p [Ep E]].
    apply bind_Ok in E. destruct E as [a [_ E]].
    apply bind_Ok in E. destruct E as [q [_ E]].
    apply bind_Ok in E. destruct E as [b [_ E]].
    injection E as <- <-.
    assert (Hp : In (coordinate p) (coordinates dataset)).
    { apply in_map. unfold index_nat in Ep.
      destruct (nth_error dataset _) eqn:En; [| discriminate].
      injection Ep as <-. eapply nth_error_In. exact En. }
    cbn [yield_within gen_within cand_pivot]. repeat split; assumption.
  - intros [-> [-> Hh]] E.
    exact (scan_within dataset edge lbl homo opp _ dataset y g' Hh (incl_refl _) E).
  - intros [-> [Hh [Hc Hr]]] E.
    destruct (is_verdict check "homogeneous").
    + exact (scan_within dataset edge lbl current opp true rest y g' Hc Hr E).
    + destruct (is_verdict check "opposite inside").
      * exact (scan_within dataset edge lbl homo current found rest y g' Hh Hr E).
      * exact (scan_within dataset edge lbl homo opp found rest y g' Hh Hr E).
  - discriminate.
  - discriminate.
Qed.

Lemma feed_within (dataset : Dataset) (lbl : Z) (replies : list string) :
  forall (g : generator) (y : yielded),
  gen_within dataset lbl g -> yield_within dataset lbl y ->
  Forall (yield_within dataset lbl) (fst (feed g replies y)).
Proof.
  induction replies as [|r replies IH]; intros g y Hg Hy; cbn [feed].
  - constructor; [exact Hy | constructor].
  - destruct (send g (Some r)) as [[y' g']| e | |] eqn:E;
      try (constructor; [exact Hy | constructor]).
    destruct (send_within dataset lbl g g' (Some r) y' Hg E) as [Hy' Hg'].
    specialize (IH g' y' Hg' Hy').
    destruct (feed g' replies y') as [ys e]. constructor; [exact Hy | exact IH].
Qed.

(** X6.  Whatever the replies, every value that [pivot_on_edge] yields
    names a coordinate of a point of the dataset, and every suggestion
    carries the label the selector was created with, which need not be the
    label of the suggested point. *)
Theorem pivot_on_edge_yields_within (dataset : Dataset) (edge : Vertices) (lbl : Z)
    (replies : list string) :
  Forall (yield_within dataset lbl) (fst (run_selector dataset edge lbl replies)).
Proof.
  unfold run_selector.
  destruct (next (pivot_on_edge dataset edge lbl)) as [[y g]| e | |] eqn:E;
    try constructor.
  destruct (send_within dataset lbl (Created dataset edge lbl) g None y
              (conj eq_refl eq_refl) E) as [Hy Hg].
  apply feed_within; assumption.
Qed.

Lemma scan_pending (edge : Vertices) (lbl : Z) (homo opp : candidate) (found : bool)
    (rest : list Point) (y : yielded) (g : generator) :
  scan edge lbl homo opp found rest = Ok (y, g) -> (pending g <= length rest)%nat.
Proof.
  induction rest as [|point rest IH]; cbn [scan].
  - intros E. injection E as <- <-. cbn. lia.
  - intros E. apply bind_Ok in E. destruct E as [[[updated face] area] [_ E]].
    cbv beta iota zeta in E.
    destruct (if label point =? lbl then negb updated else updated).
    + injection E as <- <-. cbn [pending length]. lia.
    + specialize (IH E). cbn [length]. lia.
Qed.

Lemma send_pending (g g' : generator) (check : option string) (y : yielded) :
  send g check = Ok (y, g') -> (S (pending g') <= pending g)%nat.
Proof.
  destruct g as [ds edge l | ds edge l homo opp | edge l homo opp found current rest | |];
    cbn [send pending]; try discriminate.
  - destruct check; [discriminate |]. unfold pivot_on_edge_start. intros E.
    apply bind_Ok in E. destruct E as [p [_ E]].
    apply bind_Ok in E. destruct E as [a [_ E]].
    apply bind_Ok in E. destruct E as [q [_ E]].
    apply bind_Ok in E. destruct E as [b [_ E]].
    injection E as <- <-. cbn [pending]. lia.
  - intros E. apply scan_pending in E. lia.
  - intros E.
    destruct (is_verdict check "homogeneous"); [apply scan_pending in E; lia |].
    destruct (is_verdict check "opposite inside"); apply scan_pending in E; lia.
Qed.

Lemma settled_scan (edge : Vertices) (lbl : Z) (homo opp : candidate) (found : bool)
    (rest : list Point) : settled (scan edge lbl homo opp found rest).
Proof.
  induction rest as [|point rest IH]; cbn [scan]; [apply settled_Ok |].
  apply settled_bind; [apply settled_check_inside | intros [[updated face] area] _].
  cbv beta iota zeta.
  destruct (if label point =? lbl then negb updated else updated);
    [apply settled_Ok | exact IH].
Qed.

Lemma settled_send (g : generator) (check : option string) : settled (send g check).
Proof.
  destruct g as [ds edge l | ds edge l homo opp | edge l homo opp found current rest | |];
    cbn [send]; try apply settled_Raise; try apply settled_scan.
  - destruct check; [apply settled_Raise |]. unfold pivot_on_edge_start.
    apply settled_bind; [apply settled_index_nat | intros p _].
    apply settled_bind; [apply settled_squared_area | intros a _].
    apply settled_bind; [apply settled_index_nat | intros q _].
    apply settled_bind; [apply settled_squared_area | intros b _].
    apply settled_Ok.
  - destruct (is_verdict check "homogeneous"); [apply settled_scan |].
    destruct (is_verdict check "opposite inside"); apply settled_scan.
Qed.

Lemma feed_bounded (replies : list string) :
  forall (g : generator) (y : yielded),
  (length (fst (feed g replies y)) <= S (pending g))%nat /\
  ((pending g < length replies)%nat -> exists e, snd (feed g replies y) = Ended e).
Proof.
  induction replies as [|r replies IH]; intros g y; cbn [feed].
  - split; [cbn; lia | cbn; lia].
  - destruct (settled_send g (Some r)) as [[[y' g'] E] | [e E]]; rewrite E.
    + pose proof (send_pending g g' (Some r) y' E) as Hp.
      destruct (IH g' y') as [L T]. destruct (feed g' replies y') as [ys e].
      cbn [fst snd length] in *. split; [lia |].
      intros Hl. apply T. lia.
    + cbn [fst snd length]. split; [lia |]. intros _. exists e. reflexivity.
Qed.

(** X7.  The selector runs to completion: whatever the replies, it yields
    at most [len(dataset) + 2] values, and a run that is given more than
    [len(dataset) + 1] replies ends with an exception ([StopIteration] after
    the final pair, or the error of a call), never suspended. *)
Theorem pivot_on_edge_run_is_bounded (dataset : Dataset) (edge : Vertices) (lbl : Z)
    (replies : list string) :
  (length (fst (run_selector dataset edge lbl replies)) <= length dataset + 2)%nat /\
  ((length dataset + 1 < length replies)%nat ->
   exists e, snd (run_selector dataset edge lbl replies) = Ended e).
Proof.
  unfold run_selector.
  destruct (settled_send (pivot_on_edge dataset edge lbl) None) as [[[y g] E] | [e E]];
    unfold next; rewrite E.
  - pose proof (send_pending _ g None y E) as Hp. unfold pivot_on_edge in Hp.
    cbn [pending] in Hp. destruct (feed_bounded replies g y) as [L T]. split; [lia |].
    intros Hl. apply T. lia.
  - cbn [fst snd length]. split; [lia |]. intros _. exists e. reflexivity.
Qed.

End SelectorRuns.

Section SelectorVerdicts.

Context `{Numeric}.

Lemma advance_finds (cond sel : Point -> bool) (suffix : list Point) :
  (forall p, cond p = negb (sel p)) ->
  forall prefix : list Point,
  nth_error (prefix ++ suffix) (advance cond suffix (length prefix)) = find sel suffix.
Proof.
  intros C. induction suffix as [|p suffix IH]; intros prefix; cbn [advance find].
  - apply nth_error_None. rewrite app_nil_r. lia.
  - rewrite C. destruct (sel p); cbn [negb].
    + rewrite nth_error_app2 by lia. rewrite Nat.sub_diag. reflexivity.
    + specialize (IH (prefix ++ [p])). rewrite <- app_assoc in IH. cbn [app] in IH.
      rewrite length_app in IH. cbn [length] in IH.
      rewrite Nat.add_1_r in IH. exact IH.
Qed.

Lemma scan_keeps_incumbent (edge : Vertices) (lbl : Z) (homo opp : candidate)
    (found : bool) (rest : list Point) (y : yielded) (g : generator) :
  scan edge lbl homo opp found rest = Ok (y, g) ->
  match y with
  | Final p f => f = found /\ p = cand_pivot homo /\ g = AtFinalYield
  | Suggest _ _ =>
      awaiting_verdict g /\ flag g = found /\ incumbent g = Some (cand_pivot homo)
  end.
Proof.
  induction rest as [|point rest IH]; cbn [scan].
  - intros E. injection E as <- <-. repeat split.
  - intros E. apply bind_Ok in E. destruct E as [[[updated face] area] [_ E]].
    cbv beta iota zeta in E.
    destruct (if label point =? lbl then negb updated else updated).
    + injection E as <- <-. repeat split.
    + exact (IH E).
Qed.

Lemma send_updates_flag (g g' : generator) (r : string) (y : yielded) :
  awaiting_verdict g -> send g (Some r) = Ok (y, g') ->
  match y with
  | Final p f =>
      f = flag g || is_homogeneous r /\ (f = false -> Some p = incumbent g) /\
      g' = AtFinalYield
  | Suggest _ _ =>
      awaiting_verdict g' /\ flag g' = flag g || is_homogeneous r /\
      (flag g' = false -> incumbent g' = incumbent g)
  end.
Proof.
  destruct g as [ds edge l | ds edge l homo opp | edge l homo opp found current rest | |];
    cbn [awaiting_verdict]; try contradiction; intros _; cbn [send is_verdict flag incumbent];
    fold (is_homogeneous r).
  - intros E. apply scan_keeps_incumbent in E.
    destruct y as [p l' | p f]; destruct (is_homogeneous r); cbn [orb];
      destruct E as [E1 [E2 E3]]; subst; repeat split; auto.
  - destruct (is_homogeneous r).
    + intros E. apply scan_keeps_incumbent in E. rewrite orb_true_r.
      destruct y as [p l' | p f]; destruct E as [E1 [E2 E3]]; repeat split; auto;
        intros F; congruence.
    + rewrite orb_false_r. intros E.
      assert (E' : match y with
                   | Final p f => f = found /\ p = cand_pivot homo /\ g' = AtFinalYield
                   | Suggest _ _ => awaiting_verdict g' /\ flag g' = found /\
                                    incumbent g' = Some (cand_pivot homo)
                   end).
      { destruct (String.eqb r "opposite inside");
          exact (scan_keeps_incumbent _ _ _ _ _ _ _ _ E). }
      destruct y as [p l' | p f]; destruct E' as [E1 [E2 E3]]; subst; repeat split; auto.
Qed.

Lemma feed_after_final (replies : list string) (y : yielded) :
  fst (feed AtFinalYield replies y) = [y].
Proof. destruct replies; reflexivity. Qed.

Lemma feed_reports_flag (replies : list string) :
  forall (g : generator) (y : yielded) (ys : list yielded) (p : Vertex) (found : bool),
  awaiting_verdict g -> (exists q l, y = Suggest q l) ->
  fst (feed g replies y) = ys ++ [Final p found] ->
  found = flag g || existsb is_homogeneous (firstn (length ys) replies) /\
  (found = false -> Some p = incumbent g).
Proof.
  induction replies as [|r replies IH]; intros g y ys p found Hg [q [l ->]]; cbn [feed].
  - cbn [fst]. intros E. destruct ys as [|a [|b ys]]; discriminate.
  - destruct (send g (Some r)) as [[y' g']| e | |] eqn:E; cbn [fst];
      try (intros F; destruct ys as [|a [|b ys]]; discriminate).
    pose proof (send_updates_flag g g' r y' Hg E) as S.
    destruct (feed g' replies y') as [l' e'] eqn:F. cbn [fst]. intros L.
    destruct ys as [|a ys]; [destruct l'; discriminate |].
    injection L as <- L.
    destruct y' as [q' lq | p' f'].
    + destruct S as [Hg' [Ef Ei]].
      assert (L' : fst (feed g' replies (Suggest q' lq)) = ys ++ [Final p found])
        by (rewrite F; exact L).
      destruct (IH g' (Suggest q' lq) ys p found Hg'
                  (ex_intro _ q' (ex_intro _ lq eq_refl)) L') as [Ff Fi].
      cbn [length firstn existsb]. split.
      * rewrite Ff, Ef. rewrite orb_assoc. reflexivity.
      * intros Z. rewrite Z in Ff. symmetry in Ff.
        apply orb_false_elim in Ff. destruct Ff as [Ff _].
        rewrite <- (Ei Ff). exact (Fi Z).
    + destruct S as [Ef [Ei ->]].
      pose proof (feed_after_final replies (Final p' f')) as A. rewrite F in A.
      cbn [fst] in A. rewrite A in L.
      destruct ys as [|b ys]; [| destruct ys; discriminate].
      injection L as -> ->. cbn [length firstn existsb].
      rewrite orb_false_r. split; [exact Ef | exact Ei].
Qed.

(** X8.  When a run of [pivot_on_edge] reaches its final pair, the [found]
    flag says whether one of the replies consumed so far was 'homogeneous';
    when none was, the pivot returned is the first point of the selector's
    label, accepted by nobody. *)
Theorem pivot_on_edge_found_means_accepted (dataset : Dataset) (edge : Vertices) (lbl : Z)
    (replies : list string) (ys : list yielded) (p : Vertex) (found : bool) :
  fst (run_selector dataset edge lbl replies) = ys ++ [Final p found] ->
  found = existsb is_homogeneous (firstn (length ys) replies) /\
  (found = false ->
   exists q, find (fun x => label x =? lbl) dataset = Some q /\ p = coordinate q).
Proof.
  unfold run_selector, next, pivot_on_edge. cbn [send].
  destruct (pivot_on_edge_start dataset edge lbl) as [[y g]| e | |] eqn:E; cbn [fst];
    try (intros F; destruct ys; discriminate).
  unfold pivot_on_edge_start in E.
  apply bind_Ok in E. destruct E as [q [Eq E]].
  apply bind_Ok in E. destruct E as [a [_ E]].
  apply bind_Ok in E. destruct E as [q' [_ E]].
  apply bind_Ok in E. destruct E as [b [_ E]].
  injection E as <- <-. intros F.
  destruct (fun G => feed_reports_flag replies _ _ ys p found G
              (ex_intro _ _ (ex_intro _ _ eq_refl)) F) as [Ff Fi]; [exact I |].
  cbn [flag orb incumbent cand_pivot] in Ff, Fi. split; [exact Ff |].
  intros Z. exists q. split.
  - pose proof (advance_finds (fun x => negb (label x =? lbl)) (fun x => label x =? lbl)
                  dataset (fun x => eq_refl) []) as A.
    cbn [app length] in A. rewrite <- A. unfold index_nat in Eq.
    destruct (nth_error dataset _); [injection Eq as ->; reflexivity | discriminate].
  - specialize (Fi Z). injection Fi as ->. reflexivity.
Qed.

Lemma send_same_acceptance (g1 g2 : generator) (r1 r2 : string) :
  same_but_opp g1 g2 -> same_acceptance r1 r2 ->
  related (send g1 (Some r1)) (send g2 (Some r2)).
Proof.
  unfold same_acceptance, is_homogeneous. intros G R.
  destruct G; cbn [send is_verdict]; try reflexivity.
  - rewrite R. apply scan_ignores_opp.
  - rewrite R. destruct (String.eqb r2 "homogeneous"); [apply scan_ignores_opp |].
    destruct (String.eqb r1 "opposite inside");
      destruct (String.eqb r2 "opposite inside"); apply scan_ignores_opp.
Qed.

Lemma feed_same_acceptance (g1 g2 : generator) (rs1 rs2 : list string) (y : yielded) :
  same_but_opp g1 g2 -> Forall2 same_acceptance rs1 rs2 ->
  feed g1 rs1 y = feed g2 rs2 y.
Proof.
  intros G F. revert g1 g2 y G.
  induction F as [|r1 r2 rs1 rs2 R F IH]; intros g1 g2 y G; cbn [feed]; [reflexivity |].
  pose proof (send_same_acceptance g1 g2 r1 r2 G R) as S.
  destruct (send g1 (Some r1)) as [[y1 g1']| e1 | |];
    destruct (send g2 (Some r2)) as [[y2 g2']| e2 | |];
    cbn [related] in S; try contradiction; try reflexivity.
  - destruct S as [-> G']. rewrite (IH g1' g2' y2 G'). reflexivity.
  - subst. reflexivity.
Qed.

(** X9.  A run of [pivot_on_edge] depends on its replies only through
    which of them are the string 'homogeneous': every other reply, a
    verdict of the protocol or not, has the same effect on what is yielded
    and on how the run ends. *)
Theorem pivot_on_edge_reads_only_acceptance (dataset : Dataset) (edge : Vertices)
    (lbl : Z) (replies1 replies2 : list string) :
  Forall2 same_acceptance replies1 replies2 ->
  run_selector dataset edge lbl replies1 = run_selector dataset edge lbl replies2.
Proof.
  intros F. unfold run_selector.
  destruct (next (pivot_on_edge dataset edge lbl)) as [[y g]| e | |] eqn:E;
    try reflexivity.
  apply feed_same_acceptance; [| exact F].
  unfold next, pivot_on_edge in E. cbn [send] in E. unfold pivot_on_edge_start in E.
  apply bind_Ok in E. destruct E as [p [_ E]].
  apply bind_Ok in E. destruct E as [a [_ E]].
  apply bind_Ok in E. destruct E as [q [_ E]].
  apply bind_Ok in E. destruct E as [b [_ E]].
  injection E as <- <-. constructor.
Qed.

End SelectorVerdicts.

Section SelectorVerdictsWitness.

(** X8 on four points of two labels, with one accepting reply out of three. *)
Lemma pivot_on_edge_found_means_accepted_witness :
  fst (run_selector [pt [0; 0] 1; pt [1; 0] 2; pt [3; 1] 1; pt [0; -4] 2] [[5; 5]] 1
         ["heterogeneous"; "homogeneous"; "opposite outside"]%string)
  = [Suggest [0; 0] 1; Suggest [1; 0] 1; Suggest [0; -4] 1] ++ [Final [1; 0] true] /\
  true = existsb is_homogeneous
           (firstn 3 ["heterogeneous"; "homogeneous"; "opposite outside"]%string).
Proof.
  assert (R : fst (run_selector [pt [0; 0] 1; pt [1; 0] 2; pt [3; 1] 1; pt [0; -4] 2]
                     [[5; 5]] 1
                     ["heterogeneous"; "homogeneous"; "opposite outside"]%string)
              = [Suggest [0; 0] 1; Suggest [1; 0] 1; Suggest [0; -4] 1]
                ++ [Final [1; 0] true]) by reflexivity.
  split; [exact R |].
  exact (proj1 (@pivot_on_edge_found_means_accepted exact _ _ _ _ _ _ _ R)).
Defined.

(** X9 on the same points: a misspelt verdict and an unknown one in one
    run, two verdicts of the protocol in the other. *)
Lemma pivot_on_edge_reads_only_acceptance_witness :
  Forall2 same_acceptance
    ["hetrogeneous"; "homogeneous"; "no verdict"]%string
    ["heterogeneous"; "homogeneous"; "opposite inside"]%string /\
  run_selector [pt [0; 0] 1; pt [1; 0] 2; pt [3; 1] 1; pt [0; -4] 2] [[5; 5]] 1
    ["hetrogeneous"; "homogeneous"; "no verdict"]%string
  = run_selector [pt [0; 0] 1; pt [1; 0] 2; pt [3; 1] 1; pt [0; -4] 2] [[5; 5]] 1
    ["heterogeneous"; "homogeneous"; "opposite inside"]%string.
Proof.
  assert (F : Forall2 same_acceptance
    ["hetrogeneous"; "homogeneous"; "no verdict"]%string
    ["heterogeneous"; "homogeneous"; "opposite inside"]%string).
  { repeat constructor. }
  split; [exact F |].
  exact (@pivot_on_edge_reads_only_acceptance exact _ _ _ _ _ F).
Defined.

End SelectorVerdictsWitness.

Section Negotiation.

Context `{Numeric}.

Lemma settled_check_homogeneity (dataset : Dataset) (hull : list Vertices) (lbl : Z)
    (used_pivots : list Vertex) :
  settled (check_homogeneity dataset hull lbl used_pivots).
Proof.
  induction dataset as [|point dataset IH]; cbn [check_homogeneity]; [apply settled_Ok |].
  destruct (vertex_in (coordinate point) used_pivots || (label point =? lbl)); [exact IH |].
  apply settled_bind; [apply settled_check_inside_hull | intros inside _].
  destruct inside; [apply settled_Ok | exact IH].
Qed.

Lemma negotiate_settled (dataset : Dataset) (lbl : Z) (used_pivots : list Vertex)
    (hull : list Vertices) (edge : Vertices) (fuel : nat) :
  forall (g : generator) (y : yielded),
  (pending g < fuel)%nat ->
  settled (negotiate fuel dataset lbl used_pivots hull edge g y).
Proof.
  induction fuel as [|fuel IH]; intros g y Hp; [lia |].
  destruct y as [p plabel | p found]; cbn [negotiate]; [| apply settled_Ok].
  destruct (lbl =? plabel).
  - apply settled_bind; [apply settled_check_homogeneity | intros b _].
    apply settled_bind; [apply settled_send | intros [y' g'] E].
    cbn [fst snd]. apply IH. apply send_pending in E. lia.
  - apply settled_bind; [apply settled_check_inside_hull | intros b _].
    apply settled_bind; [apply settled_send | intros [y' g'] E].
    cbn [fst snd]. apply IH. apply send_pending in E. lia.
Qed.

(** X10.  The loop [while len(pivot) == 3] of [gift_wrapping] terminates:
    started on the first value of a selector over a dataset, it returns the
    final pair or raises within [len(dataset) + 1] rounds, whatever the
    dataset, the hull and the used pivots that the driver checks against. *)
Theorem negotiate_terminates (selected dataset : Dataset) (ridge edge : Vertices)
    (lbl : Z) (used_pivots : list Vertex) (hull : list Vertices) (fuel : nat)
    (y : yielded) (g : generator) :
  next (pivot_on_edge selected ridge lbl) = Ok (y, g) ->
  (length selected + 1 < fuel)%nat ->
  settled (negotiate fuel dataset lbl used_pivots hull edge g y).
Proof.
  intros E Hf. apply negotiate_settled.
  apply send_pending in E. unfold pivot_on_edge in E. cbn [pending] in E. lia.
Qed.

Lemma reply_is_homogeneous (b : bool) :
  is_homogeneous (if b then "homogeneous" else "hetrogeneous") = b.
Proof. destruct b; reflexivity. Qed.

Lemma negotiate_flag (selected dataset : Dataset) (lbl : Z) (used_pivots : list Vertex)
    (hull : list Vertices) (edge : Vertices) (fuel : nat) :
  forall (g : generator) (q : Vertex) (l : Z) (p : Vertex) (found : bool),
  gen_within selected lbl g -> awaiting_verdict g ->
  yield_within selected lbl (Suggest q l) ->
  negotiate fuel dataset lbl used_pivots hull edge g (Suggest q l) = Ok (p, found) ->
  found = flag g || forallb (exempt lbl used_pivots) dataset.
Proof.
  induction fuel as [|fuel IH]; intros g q l p found Hg Ha [-> _]; cbn [negotiate];
    [discriminate |].
  rewrite Z.eqb_refl. intros E.
  apply bind_Ok in E. destruct E as [b [Eb E]].
  apply check_homogeneity_outcome in Eb.
  apply bind_Ok in E. destruct E as [[y' g'] [Es E]]. cbn [fst snd] in E.
  pose proof (send_updates_flag g g' _ y' Ha Es) as U.
  rewrite reply_is_homogeneous, Eb in U.
  destruct (send_within selected lbl g g' _ y' Hg Es) as [Hy' Hg'].
  destruct y' as [q' l' | p' f'].
  - destruct U as [Ha' [Ef _]].
    rewrite (IH g' q' l' p found Hg' Ha' Hy' E), Ef, <- orb_assoc, orb_diag.
    reflexivity.
  - destruct U as [Ef _]. destruct fuel; cbn [negotiate] in E;
      injection E as _ <-; exact Ef.
Qed.

(** X11.  Whatever pivots the selector suggests, the pair with which the
    loop [while len(pivot) == 3] ends has [found = True] exactly when every
    point of the dataset is a used pivot or carries the hull's label: every
    suggestion carries the driver's own label, and every suggestion gets
    the same verdict from [check_homogeneity]. *)
Theorem negotiate_finds_only_in_pure_dataset (selected dataset : Dataset)
    (ridge edge : Vertices) (lbl : Z) (used_pivots : list Vertex) (hull : list Vertices)
    (fuel : nat) (y : yielded) (g : generator) (p : Vertex) (found : bool) :
  next (pivot_on_edge selected ridge lbl) = Ok (y, g) ->
  negotiate fuel dataset lbl used_pivots hull edge g y = Ok (p, found) ->
  found = forallb (exempt lbl used_pivots) dataset.
Proof.
  intros E N.
  destruct (send_within selected lbl (Created selected ridge lbl) g None y
              (conj eq_refl eq_refl) E) as [Hy Hg].
  unfold next, pivot_on_edge in E. cbn [send] in E. unfold pivot_on_edge_start in E.
  apply bind_Ok in E. destruct E as [a [_ E]].
  apply bind_Ok in E. destruct E as [b [_ E]].
  apply bind_Ok in E. destruct E as [c [_ E]].
  apply bind_Ok in E. destruct E as [d [_ E]].
  injection E as <- <-.
  exact (negotiate_flag selected dataset lbl used_pivots hull edge fuel _ _ _ p found
           Hg I Hy N).
Qed.

End Negotiation.

Section NegotiationWitness.

Lemma first_suspension_reached :
  next (pivot_on_edge mixed_dataset [[5; 5]] 1) = Ok (first_suggestion, first_suspension).
Proof. reflexivity. Qed.

(** X10 on four points of two labels. *)
Lemma negotiate_terminates_witness :
  settled (negotiate 6 mixed_dataset 1 [] [] [[5; 5]] first_suspension first_suggestion).
Proof.
  apply (@negotiate_terminates exact mixed_dataset mixed_dataset [[5; 5]] [[5; 5]] 1 [] []
           6 first_suggestion first_suspension first_suspension_reached).
  simpl. lia.
Defined.

(** X11 on the same points: two of them have another label, and no pivot
    is found. *)
Lemma negotiate_finds_only_in_pure_dataset_witness :
  negotiate 6 mixed_dataset 1 [] [] [[5; 5]] first_suspension first_suggestion
  = Ok ([0; 0], false) /\
  false = forallb (exempt 1 []) mixed_dataset.
Proof.
  assert (N : negotiate 6 mixed_dataset 1 [] [] [[5; 5]] first_suspension first_suggestion
              = Ok ([0; 0], false)) by reflexivity.
  split; [exact N |].
  exact (@negotiate_finds_only_in_pure_dataset exact mixed_dataset mixed_dataset
           [[5; 5]] [[5; 5]] 1 [] [] 6 first_suggestion first_suspension [0; 0] false
           first_suspension_reached N).
Defined.

End NegotiationWitness.

(** * Loading and the entry point *)

Section LoaderProperties.

Context `{Numeric}.
Variable py_float : string -> outcome scalar.
Variable py_int : string -> outcome Z.
Variable file_text : string -> string.

Local Abbreviation load := (load_dataset py_float py_int).

Lemma split_on_pieces (sep : Ascii.ascii) (s : string) :
  length (split_on sep s) = S (occurrences sep s).
Proof.
  induction s as [|c s IH]; cbn [split_on occurrences]; [reflexivity |].
  destruct (Ascii.eqb c sep); cbn [length]; [rewrite IH; reflexivity |].
  destruct (split_on sep s) as [|piece pieces]; [discriminate IH | exact IH].
Qed.

(** Splitting commutes with joining by the separator. *)
Lemma split_on_joined (sep : Ascii.ascii) (a b : string) :
  split_on sep (a ++ String sep b) = split_on sep a ++ split_on sep b.
Proof.
  induction a as [|c a IH]; cbn [String.append split_on].
  - rewrite Ascii.eqb_refl. reflexivity.
  - destruct (Ascii.eqb c sep); [rewrite IH; reflexivity |].
    rewrite IH. pose proof (split_on_pieces sep a) as L.
    destruct (split_on sep a) as [|piece pieces]; [discriminate L | reflexivity].
Qed.

Lemma map_outcome_length {A B : Type} (f : A -> outcome B) (l : list A) (bs : list B) :
  map_outcome f l = Ok bs -> length bs = length l.
Proof.
  revert bs. induction l as [|a l IH]; intros bs; cbn [map_outcome].
  - intros E. injection E as <-. reflexivity.
  - intros E. apply bind_Ok in E. destruct E as [b [_ E]].
    apply bind_Ok in E. destruct E as [bs' [E' E]].
    injection E as <-. cbn [length]. rewrite (IH bs' E'). reflexivity.
Qed.

Lemma settled_map_outcome {A B : Type} (f : A -> outcome B) (l : list A) :
  (forall a, settled (f a)) -> settled (map_outcome f l).
Proof.
  intros S. induction l as [|a l IH]; cbn [map_outcome]; [apply settled_Ok |].
  apply settled_bind; [apply S | intros b _].
  apply settled_bind; [exact IH | intros bs _]. apply settled_Ok.
Qed.

Lemma map_outcome_raises {A B : Type} (f : A -> outcome B) (l l' : list A) (x : A) :
  (forall a, settled (f a)) -> raises (f x) -> raises (map_outcome f (l ++ x :: l')).
Proof.
  intros S [e E]. induction l as [|a l IH]; cbn [app map_outcome].
  - rewrite E. exists e. reflexivity.
  - destruct (S a) as [[b Eb] | [e' Ee]].
    + rewrite Eb. cbn [bind]. destruct IH as [e' Ee]. rewrite Ee. exists e'. reflexivity.
    + rewrite Ee. exists e'. reflexivity.
Qed.

Lemma settled_parse_point (fields : list string) :
  (forall s, settled (py_float s)) -> (forall s, settled (py_int s)) ->
  settled (parse_point py_float py_int fields).
Proof.
  intros F I. unfold parse_point.
  apply settled_bind; [apply settled_map_outcome; exact F | intros cs _].
  apply settled_bind; [| intros l _; apply settled_Ok].
  destruct fields; [apply settled_Raise | apply I].
Qed.

Lemma settled_load_dataset (text : string) :
  (forall s, settled (py_float s)) -> (forall s, settled (py_int s)) ->
  settled (load text).
Proof.
  intros F I. unfold load_dataset. apply settled_map_outcome.
  intros line. apply settled_parse_point; assumption.
Qed.

Lemma load_dataset_length (text : string) (dataset : Dataset) :
  load text = Ok dataset -> length dataset = S (occurrences newline text).
Proof.
  unfold load_dataset. intros E. rewrite (map_outcome_length _ _ _ E).
  apply split_on_pieces.
Qed.

(** X17.  [load_dataset] returns one point for each line of the text, the
    part after the last newline included: a dataset that it returns is
    never empty. *)
Theorem load_dataset_yields_a_point_per_line (text : string) (dataset : Dataset) :
  load text = Ok dataset -> length dataset = S (occurrences newline text).
Proof. exact (load_dataset_length text dataset). Qed.

Lemma parse_point_of_empty_line :
  raises (py_int EmptyString) ->
  raises (parse_point py_float py_int (split_on comma EmptyString)).
Proof.
  intros [e E]. unfold parse_point. cbn [split_on removelast map_outcome bind last].
  rewrite E. exists e. reflexivity.
Qed.

(** X18.  When [int] refuses the empty string, [load_dataset] raises on
    every text that ends with a newline, and on the empty text: the last
    piece of the split is an empty line, whose label is the empty string. *)
Theorem load_dataset_refuses_final_newline (prefix : string) :
  (forall s, settled (py_float s)) -> (forall s, settled (py_int s)) ->
  raises (py_int EmptyString) ->
  raises (load (prefix ++ String newline EmptyString)) /\ raises (load EmptyString).
Proof.
  intros F I E.
  assert (S : forall line, settled (parse_point py_float py_int (split_on comma line)))
    by (intros line; apply settled_parse_point; assumption).
  pose proof (parse_point_of_empty_line E) as P.
  unfold load_dataset. split.
  - rewrite split_on_joined. cbn [split_on].
    exact (map_outcome_raises _ (split_on newline prefix) [] EmptyString S P).
  - exact (map_outcome_raises _ [] [] EmptyString S P).
Qed.

Lemma clustering_only_empty (fuel : nat) (dataset : Dataset) (clusters : list cluster) :
  clustering fuel dataset = Ok clusters -> clusters = [].
Proof. intros E. exact (proj2 (clustering_emits_nothing fuel dataset clusters E)). Qed.

(** X19.  The indicators cannot be computed from anything that
    [clustering] returns: both [size_versus_number_of_clusters] and
    [volume_versus_size] read the first cluster of a list that is empty. *)
Theorem indicators_raise_after_clustering (fuel : nat) (dataset : Dataset)
    (clusters : list cluster) :
  clustering fuel dataset = Ok clusters ->
  size_versus_number_of_clusters clusters = Raise IndexError /\
  volume_versus_size clusters = Raise IndexError.
Proof.
  intros E. rewrite (clustering_only_empty fuel dataset clusters E).
  split; reflexivity.
Qed.

(** X20.  [main] does not complete: whatever its arguments and the text
    of the dataset file, and for conversions that return or raise, it is
    left by an exception before the indicators are computed. *)
Theorem main_raises (fuel : nat) (argv : list string) :
  (forall s, settled (py_float s)) -> (forall s, settled (py_int s)) ->
  raises (main py_float py_int file_text (S (S fuel)) argv).
Proof.
  intros F I. unfold main.
  destruct argv as [|a1 [|a2 [|a3 [|a4 [|a5 argv]]]]];
    try (exists ValueError; reflexivity).
  destruct (settled_load_dataset (file_text a1) F I) as [[dataset E] | [e E]]; rewrite E.
  - cbn [bind]. pose proof (load_dataset_length _ _ E) as L.
    destruct dataset as [|p dataset]; [discriminate L |].
    destruct (clustering_raises fuel p dataset) as [e Ec]. rewrite Ec.
    exists e. reflexivity.
  - exists e. reflexivity.
Qed.

End LoaderProperties.

Section LoaderWitnesses.

Import DecimalText.

Lemma settled_digits (s : string) (acc : Z) : settled (digits s acc).
Proof.
  revert acc. induction s as [|c s IH]; intros acc; cbn [digits]; [apply settled_Ok |].
  destruct (digit_value c); [apply IH | apply settled_Raise].
Qed.

Lemma settled_decimal (s : string) : settled (decimal s).
Proof.
  unfold decimal. destruct s as [|c s]; [apply settled_Raise |].
  destruct (Ascii.eqb c (Ascii.ascii_of_nat 45)); [| apply settled_digits].
  destruct s as [|c' s]; [apply settled_Raise |].
  apply settled_bind; [apply settled_digits | intros v _; apply settled_Ok].
Qed.

(** X17 on two lines. *)
Lemma load_dataset_yields_a_point_per_line_witness :
  @load_dataset exact decimal decimal two_lines = Ok [pt [0; 0] 1; pt [2; -3] 1] /\
  length [pt [0; 0] 1; pt [2; -3] 1] = S (occurrences newline two_lines).
Proof.
  assert (E : @load_dataset exact decimal decimal two_lines
              = Ok [pt [0; 0] 1; pt [2; -3] 1]) by reflexivity.
  split; [exact E |].
  exact (@load_dataset_yields_a_point_per_line exact decimal decimal two_lines _ E).
Defined.

(** X18 on the same text with a newline at its end. *)
Lemma load_dataset_refuses_final_newline_witness :
  raises (@load_dataset exact decimal decimal (two_lines ++ String newline EmptyString)) /\
  raises (@load_dataset exact decimal decimal EmptyString).
Proof.
  apply (@load_dataset_refuses_final_newline exact decimal decimal two_lines);
    [exact settled_decimal | exact settled_decimal |].
  exists ValueError. reflexivity.
Defined.

(** X19 on the empty dataset. *)
Lemma indicators_raise_after_clustering_witness :
  @size_versus_number_of_clusters exact [] = Raise IndexError /\
  @volume_versus_size exact [] = Raise IndexError.
Proof.
  exact (@indicators_raise_after_clustering exact 1 [] [] eq_refl).
Defined.

(** X20 on four file names, the dataset file holding the two lines. *)
Lemma main_raises_witness :
  raises (@main exact decimal decimal (fun _ => two_lines) 2
            ["data.csv"; "clusters.json"; "features.json"; "run.log"]%string).
Proof.
  exact (@main_raises exact decimal decimal (fun _ => two_lines) 0
           ["data.csv"; "clusters.json"; "features.json"; "run.log"]%string
           settled_decimal settled_decimal).
Defined.

End LoaderWitnesses.
